(** * PromptSynthesis: variable substitution and prompt-chain execution

    A shallow embedding of the template engine of the workbench:
    - [substituteVars] and [detectedVars] of the prompt tester
      (src/components/ChatBot.tsx),
    - [substituteAll], [runChain], [addStep] and [removeStep] of the prompt
      chainer (src/components/PromptBuilder.tsx),
    together with the properties of the specification that concern them. *)

From Stdlib Require Import Ascii String DecimalString DecimalNat.
From Stdlib Require Import List Arith Lia Bool NArith Permutation.
Import ListNotations.

(** ** JavaScript strings

    A JavaScript string is a finite sequence of UTF-16 code units.  We keep
    the code units as numbers, so that the line terminators the regular
    expression engine knows about (among them U+2028 and U+2029) are
    representable.  [str] turns an ASCII literal into such a sequence. *)

Definition code_unit := N.
Definition text := list code_unit.

Definition str (s : string) : text :=
  map N_of_ascii (list_ascii_of_string s).

Definition text_eqb (a b : text) : bool :=
  if list_eq_dec N.eq_dec a b then true else false.

Definition lbrace : code_unit := 123%N.
Definition rbrace : code_unit := 125%N.
Definition space : code_unit := 32%N.
Definition newline : code_unit := 10%N.

(** [starts_with p t] is [t.startsWith(p)]. *)
Fixpoint starts_with (p t : text) : bool :=
  match p, t with
  | [], _ => true
  | _ :: _, [] => false
  | a :: p', b :: t' => N.eqb a b && starts_with p' t'
  end.

(** *** [String.prototype.split] and [Array.prototype.join]

    [split sep t] cuts [t] at the occurrences of [sep], found from left to
    right without overlap.  The counter of [split_from] is the number of code
    units of a separator just recognised that are still to be stepped over.
    An empty separator cuts between all code units. *)

Definition cons_head (c : code_unit) (pieces : list text) : list text :=
  match pieces with
  | [] => [[c]]
  | p :: ps => (c :: p) :: ps
  end.

Fixpoint split_from (sep : text) (skip : nat) (t : text) : list text :=
  match t with
  | [] => [[]]
  | c :: t' =>
      match skip with
      | S n => split_from sep n t'
      | O =>
          if starts_with sep t
          then [] :: split_from sep (length sep - 1) t'
          else cons_head c (split_from sep 0 t')
      end
  end.

Definition split (sep t : text) : list text :=
  match sep with
  | [] => map (fun c => [c]) t
  | _ :: _ => split_from sep 0 t
  end.

Fixpoint join (glue : text) (pieces : list text) : text :=
  match pieces with
  | [] => []
  | [p] => p
  | p :: ps => p ++ glue ++ join glue ps
  end.

(** The template literal [`{{${key}}}`]. *)
Definition placeholder (key : text) : text :=
  lbrace :: lbrace :: key ++ [rbrace; rbrace].

(** One pass of the substitution loops:
    [result.split(`{{${key}}}`).join(val)]. *)
Definition replace_pass (result : text) (kv : text * text) : text :=
  join (snd kv) (split (placeholder (fst kv)) result).

(** ** The prompt tester (ChatBot.tsx)

    A [Record<string, string>] is represented by its [Object.entries]: the
    list of its key/value pairs in the object's iteration order. *)

Definition entries := list (text * text).

Definition substituteVars (variables : entries) (text0 : text) : text :=
  fold_left replace_pass variables text0.

(** *** Variable discovery

    [detectedVars] joins the values of the prompt with a space, collects the
    matches of the global regular expression [/{{(.*?)}}/g], deletes every
    brace of each match and removes duplicates through a [Set]. *)

Record RiccePrompt := {
  role : text;
  instruction : text;
  context : text;
  constraints : text;
  evaluation : text
}.

Definition Object_values (p : RiccePrompt) : list text :=
  [role p; instruction p; context p; constraints p; evaluation p].

(** The dot of a regular expression without the [s] flag matches every code
    unit but the four line terminators. *)
Definition is_line_terminator (c : code_unit) : bool :=
  (c =? 10)%N || (c =? 13)%N || (c =? 8232)%N || (c =? 8233)%N.

(** [find_close t] runs the lazy group [(.*?)] followed by [}}] on the text
    after an opening [{{]: the captured group and the text after the match. *)
Fixpoint find_close (t : text) : option (text * text) :=
  if starts_with [rbrace; rbrace] t then Some ([], skipn 2 t)
  else
    match t with
    | [] => None
    | c :: t' =>
        if is_line_terminator c then None
        else
          match find_close t' with
          | Some (g, rest) => Some (c :: g, rest)
          | None => None
          end
    end.

(** All matches of [/{{(.*?)}}/g], from left to right; after a match the
    scan resumes behind it ([skip] counts the code units still to pass). *)
Fixpoint match_from (skip : nat) (t : text) : list text :=
  match t with
  | [] => []
  | _ :: t' =>
      match skip with
      | S n => match_from n t'
      | O =>
          if starts_with [lbrace; lbrace] t then
            match find_close (skipn 2 t) with
            | Some (g, _) => placeholder g :: match_from (length g + 3) t'
            | None => match_from 0 t'
            end
          else match_from 0 t'
      end
  end.

Definition match_placeholders (t : text) : list text := match_from 0 t.

(** [v.replace(/[{}]/g, '')] *)
Definition strip_braces (v : text) : text :=
  filter (fun c => negb ((c =? lbrace)%N || (c =? rbrace)%N)) v.

Definition mem (x : text) (l : list text) : bool :=
  existsb (text_eqb x) l.

(** [Array.from(new Set(xs))]: the first occurrences, in insertion order. *)
Definition Set_add (acc : list text) (x : text) : list text :=
  if mem x acc then acc else acc ++ [x].

Definition Array_from_Set (xs : list text) : list text :=
  fold_left Set_add xs [].

Definition detect_in_values (values : list text) : list text :=
  Array_from_Set (map strip_braces (match_placeholders (join [space] values))).

Definition detectedVars (promptData : RiccePrompt) : list text :=
  detect_in_values (Object_values promptData).

(** ** The prompt chainer (PromptBuilder.tsx) *)

Inductive Status := idle | running | completed | error.

Record PromptChainStep := {
  id : text;
  name : text;
  promptData : RiccePrompt;
  output : option text;      (* [output?: string] *)
  status : Status
}.

(** Decimal rendering of a number inside a template literal. *)
Definition show_nat (n : nat) : text :=
  str (NilEmpty.string_of_uint (Nat.to_uint n)).

(** [addStep]; [fresh_id] is the value [crypto.randomUUID()] returns. *)
Definition addStep (fresh_id : text) (steps : list PromptChainStep)
  : list PromptChainStep :=
  let prevStepIndex := length steps in
  steps ++
  [ {| id := fresh_id;
       name := str "Stage " ++ show_nat (prevStepIndex + 1) ++ str ": Expansion";
       promptData :=
         {| role := str "Creative Director";
            instruction :=
              str "Based on Stage " ++ show_nat prevStepIndex
              ++ str " output, expand on the third theme: {{output_"
              ++ show_nat prevStepIndex ++ str "}}.";
            context := str "Turning research into a creative campaign.";
            constraints := str "Narrative tone.";
            evaluation := str "Compelling storytelling." |};
       output := None;
       status := idle |} ].

Definition removeStep (id0 : text) (steps : list PromptChainStep)
  : list PromptChainStep :=
  if 1 <? length steps
  then filter (fun s => negb (text_eqb (id s) id0)) steps
  else steps.

(** A string is truthy when it is defined and not empty. *)
Definition truthy (o : option text) : bool :=
  match o with
  | Some (_ :: _) => true
  | _ => false
  end.

Definition or_empty (o : option text) : text :=
  match o with
  | Some s => s
  | None => []
  end.

(** The name [output_${idx + 1}]. *)
Definition output_name (idx : nat) : text :=
  str "output_" ++ show_nat (idx + 1).

(** [steps.forEach((step, idx) => ...)] visits the pairs of [indexed steps]. *)
Definition indexed {A : Type} (l : list A) : list (nat * A) :=
  combine (seq 0 (length l)) l.

Definition output_pass (currentStepIndex : nat) (result : text)
  (entry : nat * PromptChainStep) : text :=
  let (idx, step) := entry in
  if (idx <? currentStepIndex) && truthy (output step)
  then join (or_empty (output step)) (split (placeholder (output_name idx)) result)
  else result.

Definition substituteAll (globalVariables : entries)
  (steps : list PromptChainStep) (text0 : text) (currentStepIndex : nat) : text :=
  let result := fold_left replace_pass globalVariables text0 in
  fold_left (output_pass currentStepIndex) (indexed steps) result.

(** *** Running the chain

    The steps are objects shared by the state array [steps] and by its copy
    [updatedSteps]: an assignment to [updatedSteps[i].status] is seen by
    [substituteAll] through [steps].  The model therefore keeps one store,
    the list of the step objects, which [runChain] updates in place and
    [substituteAll] reads.

    The calls of [setSteps] and [setIsRunning] publish the store to the
    view without changing it; they are left out.

    [testPrompt] is the streaming call to the external service.  For the
    call made for stage [i] with a given request it delivers some chunks and
    then either returns or throws. *)

Inductive settled := fulfilled | rejected.

Record response := {
  chunks : list text;
  outcome : settled
}.

Definition adapter := nat -> text -> response.

(** The assignment [l[i] = f(l[i])] for an index in range. *)
Fixpoint update {A : Type} (i : nat) (f : A -> A) (l : list A) : list A :=
  match l, i with
  | [], _ => []
  | x :: r, O => f x :: r
  | x :: r, S j => x :: update j f r
  end.

Definition set_status (st : Status) (s : PromptChainStep) : PromptChainStep :=
  {| id := id s; name := name s; promptData := promptData s;
     output := output s; status := st |}.

Definition set_output (o : text) (s : PromptChainStep) : PromptChainStep :=
  {| id := id s; name := name s; promptData := promptData s;
     output := Some o; status := status s |}.

(** [updatedSteps[i].output = (updatedSteps[i].output || '') + chunk] *)
Definition on_chunk (i : nat) (store : list PromptChainStep) (chunk : text)
  : list PromptChainStep :=
  update i (fun s => set_output (or_empty (output s) ++ chunk) s) store.

Definition empty_prompt : RiccePrompt :=
  {| role := []; instruction := []; context := []; constraints := [];
     evaluation := [] |}.

(** [updatedSteps[i].promptData]; the loop reads it for indices in range
    only. *)
Definition data_at (store : list PromptChainStep) (i : nat) : RiccePrompt :=
  match nth_error store i with
  | Some s => promptData s
  | None => empty_prompt
  end.

(** The request text of stage [i], assembled from the current store. *)
Definition fullPrompt (globalVariables : entries)
  (steps : list PromptChainStep) (i : nat) : text :=
  let data := data_at steps i in
  str "Role: " ++ substituteAll globalVariables steps (role data) i
  ++ newline :: str "Instruction: "
  ++ substituteAll globalVariables steps (instruction data) i
  ++ newline :: str "Context: "
  ++ substituteAll globalVariables steps (context data) i
  ++ newline :: str "Constraints: "
  ++ substituteAll globalVariables steps (constraints data) i
  ++ newline :: str "Evaluation: "
  ++ substituteAll globalVariables steps (evaluation data) i.

(** What a run leaves behind: the store, the requests sent to the service
    with the way each call ended, in order, and the way the promise returned
    by [runChain] is settled. *)
Record RunResult := {
  final_steps : list PromptChainStep;
  sent : list (text * settled);
  returned : settled
}.

(** The [for] loop of [runChain], from index [i]; [todo] bounds the number of
    iterations still possible. *)
Fixpoint runLoop (testPrompt : adapter) (globalVariables : entries)
  (todo i : nat) (updatedSteps : list PromptChainStep)
  (log : list (text * settled)) : RunResult :=
  match todo with
  | O => {| final_steps := updatedSteps; sent := log; returned := fulfilled |}
  | S todo' =>
      if i <? length updatedSteps then
        let started :=
          update i (set_output []) (update i (set_status running) updatedSteps) in
        let request := fullPrompt globalVariables started i in
        let r := testPrompt i request in
        let streamed := fold_left (on_chunk i) (chunks r) started in
        match outcome r with
        | fulfilled =>
            runLoop testPrompt globalVariables todo' (i + 1)
              (update i (set_status completed) streamed)
              (log ++ [(request, fulfilled)])
        | rejected =>
            {| final_steps := update i (set_status error) streamed;
               sent := log ++ [(request, rejected)];
               returned := fulfilled |}
        end
      else {| final_steps := updatedSteps; sent := log; returned := fulfilled |}
  end.

Definition runChain (testPrompt : adapter) (globalVariables : entries)
  (steps : list PromptChainStep) : RunResult :=
  runLoop testPrompt globalVariables (length steps) 0 steps [].

(** *** Small runs, evaluated *)

Definition mk_step (ident : string) (instr : string) : PromptChainStep :=
  {| id := str ident; name := str ident;
     promptData := {| role := []; instruction := str instr; context := [];
                      constraints := []; evaluation := [] |};
     output := None; status := idle |}.

Definition bees_adapter : adapter :=
  fun _ _ => {| chunks := [str "Bees "; str "are "; str "great."];
                outcome := fulfilled |}.

(** Adapters used in the examples. *)
Definition second_call_fails : adapter :=
  fun i _ => {| chunks := [str "text"];
               outcome := if i =? 1 then rejected else fulfilled |}.

Definition every_call_succeeds : adapter :=
  fun _ _ => {| chunks := [str "text"]; outcome := fulfilled |}.

Definition no_text : adapter :=
  fun _ _ => {| chunks := []; outcome := fulfilled |}.

Definition answers_S : adapter :=
  fun _ _ => {| chunks := [str "S"]; outcome := fulfilled |}.

(** ** Vocabulary of the properties *)

Definition occurs (pat t : text) : Prop :=
  exists pre post, t = pre ++ pat ++ post.

(** [includes pat t] is [t.includes(pat)], the decision of [occurs]. *)
Fixpoint includes (pat t : text) : bool :=
  starts_with pat t ||
  match t with
  | [] => false
  | _ :: t' => includes pat t'
  end.

Definition brace_free (k : text) : bool :=
  forallb (fun c => negb ((c =? lbrace)%N || (c =? rbrace)%N)) k.

Definition keys (scope : entries) : list text := map fst scope.

(** The scope [substituteAll] works with for the stage of index
    [currentStepIndex]: the global variables, then [output_(idx+1)] for the
    earlier steps whose output is truthy. *)
Definition prior_outputs (steps : list PromptChainStep)
  (currentStepIndex : nat) : entries :=
  flat_map
    (fun entry : nat * PromptChainStep =>
       if (fst entry <? currentStepIndex) && truthy (output (snd entry))
       then [(output_name (fst entry), or_empty (output (snd entry)))]
       else [])
    (indexed steps).

Definition effective_scope (globalVariables : entries)
  (steps : list PromptChainStep) (currentStepIndex : nat) : entries :=
  globalVariables ++ prior_outputs steps currentStepIndex.

Definition all_brace_free (names : list text) : Prop :=
  Forall (fun k => brace_free k = true) names.

(** A step once its turn is over: its output is the text streamed and its
    status the one given. *)
Definition stage_after (st : Status) (o : text) (s : PromptChainStep)
  : PromptChainStep :=
  {| id := id s; name := name s; promptData := promptData s;
     output := Some o; status := st |}.

Definition status_for (out : settled) : Status :=
  match out with
  | fulfilled => completed
  | rejected => error
  end.

Definition status_at (store : list PromptChainStep) (j : nat) : option Status :=
  option_map status (nth_error store j).

Definition output_at (store : list PromptChainStep) (j : nat)
  : option (option text) :=
  option_map output (nth_error store j).

(** [run_facts] gathers what holds of the result [r] of the loop started at
    index [i] on the store [S0] with the log [log]: [new] is the list of the
    calls this part of the run made. *)

Definition run_facts (tp : adapter) (g : entries) (i : nat)
  (S0 : list PromptChainStep) (log : list (text * settled))
  (r : RunResult) (new : list (text * settled)) : Prop :=
  sent r = log ++ new
  /\ returned r = fulfilled
  /\ length (final_steps r) = length S0
  /\ (forall j, data_at (final_steps r) j = data_at S0 j)
  /\ (forall j, j < i -> nth_error (final_steps r) j = nth_error S0 j)
  /\ (forall j, i + length new <= j ->
                nth_error (final_steps r) j = nth_error S0 j)
  /\ (forall j req out, nth_error new j = Some (req, out) ->
        req = fullPrompt g (final_steps r) (i + j)
        /\ out = outcome (tp (i + j) req)
        /\ status_at (final_steps r) (i + j) = Some (status_for out)
        /\ output_at (final_steps r) (i + j)
           = Some (Some (concat (chunks (tp (i + j) req))))
        /\ (out = rejected -> S j = length new))
  /\ (Forall (fun c => snd c = fulfilled) new -> length S0 <= i + length new).

(** The text after an opening [{{] is unterminated when it has neither a
    closing [}}] nor a line terminator; a text is closed when none of its
    [{{] is followed by an unterminated text. *)
Definition unterminated (s : text) : bool :=
  match find_close s with
  | Some _ => false
  | None => forallb (fun c => negb (is_line_terminator c)) s
  end.

Fixpoint closed (v : text) : bool :=
  match v with
  | [] => true
  | _ :: v' =>
      (if starts_with [lbrace; lbrace] v
       then negb (unterminated (skipn 2 v)) else true)
      && closed v'
  end.

(** The operations of the user on the chain. *)
Inductive operation :=
| AddStep (fresh_id : text)
| RemoveStep (id0 : text).

Definition apply_operation (steps : list PromptChainStep) (op : operation)
  : list PromptChainStep :=
  match op with
  | AddStep fresh_id => addStep fresh_id steps
  | RemoveStep id0 => removeStep id0 steps
  end.

(** Every identifier drawn by [crypto.randomUUID()] is new. *)
Fixpoint fresh_ids (steps : list PromptChainStep) (ops : list operation) : Prop :=
  match ops with
  | [] => True
  | op :: rest =>
      match op with
      | AddStep fresh_id => ~ In fresh_id (map id steps)
      | RemoveStep _ => True
      end
      /\ fresh_ids (apply_operation steps op) rest
  end.

(** A chain in good order: not empty, with distinct identifiers. *)
Definition chain_ok (steps : list PromptChainStep) : Prop :=
  1 <= length steps /\ NoDup (map id steps).

(** A text without opening brace. *)
Definition open_free (w : text) : Prop := Forall (fun c => c <> lbrace) w.

(** [replace_all pat v t] abbreviates [t.split(pat).join(v)] for a pattern
    that is not empty. *)
Definition replace_all (pat v t : text) : text :=
  join v (split_from pat 0 t).


(** ** More of the workbench *)

(** *** Editing the fields of a prompt

    [keyof RiccePrompt], with the reading and the functional update
    [{ ...p, [field]: value }] of one field. *)

Inductive Field :=
| f_role | f_instruction | f_context | f_constraints | f_evaluation.

Definition get_field (field : Field) (p : RiccePrompt) : text :=
  match field with
  | f_role => role p
  | f_instruction => instruction p
  | f_context => context p
  | f_constraints => constraints p
  | f_evaluation => evaluation p
  end.

Definition set_field (field : Field) (value : text) (p : RiccePrompt)
  : RiccePrompt :=
  match field with
  | f_role =>
      {| role := value; instruction := instruction p; context := context p;
         constraints := constraints p; evaluation := evaluation p |}
  | f_instruction =>
      {| role := role p; instruction := value; context := context p;
         constraints := constraints p; evaluation := evaluation p |}
  | f_context =>
      {| role := role p; instruction := instruction p; context := value;
         constraints := constraints p; evaluation := evaluation p |}
  | f_constraints =>
      {| role := role p; instruction := instruction p; context := context p;
         constraints := value; evaluation := evaluation p |}
  | f_evaluation =>
      {| role := role p; instruction := instruction p; context := context p;
         constraints := constraints p; evaluation := value |}
  end.

Definition Field_eqb (a b : Field) : bool :=
  match a, b with
  | f_role, f_role | f_instruction, f_instruction | f_context, f_context
  | f_constraints, f_constraints | f_evaluation, f_evaluation => true
  | _, _ => false
  end.

(** [handleUpdateField] of App.tsx, on the prompt it keeps. *)
Definition handleUpdateField (field : Field) (value : text) (prev : RiccePrompt)
  : RiccePrompt :=
  set_field field value prev.

(** [updateStepField] and [updateStepName] of the chainer. *)
Definition updateStepField (id0 : text) (field : Field) (value : text)
  (steps : list PromptChainStep) : list PromptChainStep :=
  map (fun s =>
         if text_eqb (id s) id0
         then {| id := id s; name := name s;
                 promptData := set_field field value (promptData s);
                 output := output s; status := status s |}
         else s) steps.

Definition updateStepName (id0 name0 : text) (steps : list PromptChainStep)
  : list PromptChainStep :=
  map (fun s =>
         if text_eqb (id s) id0
         then {| id := id s; name := name0; promptData := promptData s;
                 output := output s; status := status s |}
         else s) steps.

(** *** The improvements of an analysis (PromptBuilder.tsx)

    [analysis.improvements] is a [Partial<RiccePrompt>], given by its
    entries; [appliedImprovements] is a [Set] of field names, kept in
    insertion order. *)

Definition improvements := list (Field * text).

Fixpoint improvement_of (field : Field) (imp : improvements) : option text :=
  match imp with
  | [] => None
  | (f, t) :: rest => if Field_eqb f field then Some t else improvement_of field rest
  end.

Definition Field_mem (field : Field) (s : list Field) : bool :=
  existsb (Field_eqb field) s.

Definition Field_add (s : list Field) (field : Field) : list Field :=
  if Field_mem field s then s else s ++ [field].

Record BuilderState := {
  data : RiccePrompt;
  appliedImprovements : list Field
}.

Definition applyImprovement (imp : improvements) (field : Field)
  (st : BuilderState) : BuilderState :=
  if truthy (improvement_of field imp)
  then {| data := handleUpdateField field (or_empty (improvement_of field imp))
                    (data st);
          appliedImprovements := Field_add (appliedImprovements st) field |}
  else st.

Definition applyAllImprovements (imp : improvements) (st : BuilderState)
  : BuilderState :=
  fold_left
    (fun acc (entry : Field * text) =>
       if truthy (Some (snd entry))
       then {| data := handleUpdateField (fst entry) (snd entry) (data acc);
               appliedImprovements :=
                 Field_add (appliedImprovements acc) (fst entry) |}
       else acc)
    imp st.

(** [hasAnyImprovements] and [allImprovementsApplied]. *)
Definition hasAnyImprovements (imp : improvements) : bool :=
  existsb (fun entry : Field * text => truthy (Some (snd entry))) imp.

Definition allImprovementsApplied (imp : improvements) (applied : list Field)
  : bool :=
  hasAnyImprovements imp
  && forallb (fun k => Field_mem k applied)
       (filter (fun k => truthy (improvement_of k imp)) (map fst imp)).

(** *** Undo and redo (PromptBuilder.tsx)

    [pushSnapshot] is the update made when the debounce timer fires;
    [handleUndo] and [handleRedo] return the new state and what they hand to
    [onUpdatePrompt]: nothing, or the snapshot found at the target index
    (which is undefined for an index out of range). *)

Definition MAX_HISTORY : nat := 50.

Record HistoryState := {
  history : list RiccePrompt;
  historyIndex : nat
}.

Definition pushSnapshot (snapshot : RiccePrompt) (st : HistoryState)
  : HistoryState :=
  let pushed := firstn (historyIndex st + 1) (history st) ++ [snapshot] in
  let newHistory :=
    if MAX_HISTORY <? length pushed then tl pushed else pushed in
  {| history := newHistory;
     historyIndex := Nat.min (historyIndex st + 1) (MAX_HISTORY - 1) |}.

Definition handleUndo (st : HistoryState)
  : HistoryState * option (option RiccePrompt) :=
  if 0 <? historyIndex st then
    let targetIndex := historyIndex st - 1 in
    ({| history := history st; historyIndex := targetIndex |},
     Some (nth_error (history st) targetIndex))
  else (st, None).

Definition handleRedo (st : HistoryState)
  : HistoryState * option (option RiccePrompt) :=
  if historyIndex st <? length (history st) - 1 then
    let targetIndex := historyIndex st + 1 in
    ({| history := history st; historyIndex := targetIndex |},
     Some (nth_error (history st) targetIndex))
  else (st, None).

Definition history_ok (st : HistoryState) : Prop :=
  historyIndex st < length (history st) /\ length (history st) <= MAX_HISTORY.

(** A history for the examples. *)
Definition three_snapshots : HistoryState :=
  {| history := [empty_prompt;
                 set_field f_role (str "a") empty_prompt;
                 set_field f_role (str "ab") empty_prompt];
     historyIndex := 1 |}.

(** *** The prompt tester: request text and log of runs *)

(** [getSystemInstruction] (ChatBot.tsx). *)
Definition getSystemInstruction (variables : entries) (data0 : RiccePrompt)
  : text :=
  str "# SYSTEM INSTRUCTION" ++ newline :: str "## ROLE" ++ newline ::
  substituteVars variables (role data0) ++ newline :: newline ::
  str "## PRIMARY TASK" ++ newline ::
  substituteVars variables (instruction data0) ++ newline :: newline ::
  str "## CONTEXT" ++ newline ::
  substituteVars variables (context data0) ++ newline :: newline ::
  str "## CONSTRAINTS & RULES" ++ newline ::
  substituteVars variables (constraints data0) ++ newline :: newline ::
  str "## SUCCESS CRITERIA" ++ newline ::
  substituteVars variables (evaluation data0).

(** [getFullPrompt], the request text of the earlier tester. *)
Definition getFullPrompt (variables : entries) (data0 : RiccePrompt) : text :=
  str "Role: " ++ substituteVars variables (role data0)
  ++ newline :: str "Instruction: "
  ++ substituteVars variables (instruction data0)
  ++ newline :: str "Context: "
  ++ substituteVars variables (context data0)
  ++ newline :: str "Constraints: "
  ++ substituteVars variables (constraints data0)
  ++ newline :: str "Evaluation: "
  ++ substituteVars variables (evaluation data0).

Module Tester.

Record PromptHistoryItem := {
  id : text;
  timestamp : N;
  promptData : RiccePrompt;
  variables : entries;
  outputA : text;
  outputB : option text;
  isComparison : bool
}.

(** The state [saveToHistory] reads. *)
Record View := {
  currentPrompt : RiccePrompt;
  currentVariables : entries;
  isComparisonMode : bool
}.

(** [saveToHistory]; [fresh_id] and [now] are what [crypto.randomUUID()]
    and [Date.now()] return. *)
Definition saveToHistory (fresh_id : text) (now : N) (view : View)
  (finalA : text) (finalB : option text) (prev : list PromptHistoryItem)
  : list PromptHistoryItem :=
  let historyItem :=
    {| id := fresh_id; timestamp := now;
       promptData := currentPrompt view;
       variables := currentVariables view;
       outputA := finalA; outputB := finalB;
       isComparison := isComparisonMode view |} in
  firstn 50 (historyItem :: prev).

Definition deleteHistoryItem (id0 : text) (prev : list PromptHistoryItem)
  : list PromptHistoryItem :=
  filter (fun item => negb (text_eqb (id item) id0)) prev.

End Tester.

(** An adapter that answers with the request it was sent. *)
Definition echoes : adapter :=
  fun _ req => {| chunks := [req]; outcome := fulfilled |}.

(** An adapter for the examples: two chunks, then a failure. *)
Definition fails_after_two_chunks : adapter :=
  fun _ _ => {| chunks := [str "Bees "; str "are"]; outcome := rejected |}.

(** *** Templates in good form

    A template is a sequence of plain texts and variables; in good form its
    plain texts and its names have no brace, and its names have no line
    terminator.  [resolve_segments] replaces at once every variable that
    the scope binds. *)

Inductive segment :=
| Plain (t : text)
| Var (n : text).

Definition render_segment (s : segment) : text :=
  match s with
  | Plain t => t
  | Var n => placeholder n
  end.

Definition render (segs : list segment) : text :=
  concat (map render_segment segs).

Definition one_line (n : text) : bool :=
  forallb (fun c => negb (is_line_terminator c)) n.

Definition good_segment (s : segment) : bool :=
  match s with
  | Plain t => brace_free t
  | Var n => brace_free n && one_line n
  end.

Definition good_form (segs : list segment) : bool := forallb good_segment segs.

Definition variables_of (segs : list segment) : list text :=
  flat_map (fun s => match s with Plain _ => [] | Var n => [n] end) segs.

Fixpoint bound_to (n : text) (scope : entries) : option text :=
  match scope with
  | [] => None
  | (k, v) :: rest => if text_eqb k n then Some v else bound_to n rest
  end.

Definition resolve_segment (scope : entries) (s : segment) : segment :=
  match s with
  | Plain t => Plain t
  | Var n =>
      match bound_to n scope with
      | Some v => Plain v
      | None => Var n
      end
  end.

Definition resolve_segments (scope : entries) (segs : list segment)
  : list segment :=
  map (resolve_segment scope) segs.

(** Two stores that differ in nothing but the outputs and statuses left by
    earlier runs. *)
Definition same_chain (S1 S2 : list PromptChainStep) : Prop :=
  map (fun s => (id s, name s, promptData s)) S1
  = map (fun s => (id s, name s, promptData s)) S2.
(** * Properties *)

(** ** Evaluation on small inputs *)

Example substituteVars_hello :
  substituteVars [(str "name", str "Ada")] (str "Hi {{name}}, {{name}}!")
  = str "Hi Ada, Ada!".
Proof. reflexivity. Qed.

Example runChain_bees :
  let r := runChain bees_adapter [(str "topic", str "bees")]
             [mk_step "a" "Summarize {{topic}}"] in
  map output (final_steps r) = [Some (str "Bees are great.")]
  /\ map status (final_steps r) = [completed]
  /\ map fst (sent r)
     = [str "Role: " ++ newline :: str "Instruction: Summarize bees"
        ++ newline :: str "Context: " ++ newline :: str "Constraints: "
        ++ newline :: str "Evaluation: "].
Proof. repeat split; reflexivity. Qed.

(** ** Prefixes and occurrences *)

#[local] Arguments N.eqb : simpl never.

Ltac andb_hyps :=
  repeat match goal with
         | H : _ && _ = true |- _ => apply andb_true_iff in H; destruct H
         end.

Lemma starts_with_app (p r : text) : starts_with p (p ++ r) = true.
Proof.
  induction p as [|a p IH]; simpl; [reflexivity|].
  now rewrite N.eqb_refl, IH.
Qed.

Lemma starts_with_inv (p t : text) :
  starts_with p t = true -> exists r, t = p ++ r.
Proof.
  revert t; induction p as [|a p IH]; intros t H.
  - now exists t.
  - destruct t as [|b t]; simpl in H; [discriminate|].
    apply andb_true_iff in H as [Hab Hp].
    apply N.eqb_eq in Hab; subst b.
    destruct (IH _ Hp) as [r ->]. now exists r.
Qed.

Lemma starts_with_weaken (p t r : text) :
  starts_with p t = true -> starts_with p (t ++ r) = true.
Proof.
  intros H. destruct (starts_with_inv _ _ H) as [q ->].
  rewrite <- app_assoc. apply starts_with_app.
Qed.

Lemma brace_free_cons (c : code_unit) (k : text) :
  brace_free (c :: k) = true ->
  c <> lbrace /\ c <> rbrace /\ brace_free k = true.
Proof.
  unfold brace_free; simpl. intros H.
  apply andb_true_iff in H as [H1 H2].
  apply negb_true_iff, orb_false_iff in H1 as [Ha Hb].
  apply N.eqb_neq in Ha, Hb. auto.
Qed.

Lemma brace_free_app (a b : text) :
  brace_free (a ++ b) = brace_free a && brace_free b.
Proof. unfold brace_free. apply forallb_app. Qed.

Lemma open_free_body (k : text) :
  brace_free k = true -> open_free (k ++ [rbrace; rbrace]).
Proof.
  intros H. apply Forall_app. split.
  - induction k as [|c k IH]; constructor;
      apply brace_free_cons in H as (? & ? & ?); auto.
  - repeat constructor; discriminate.
Qed.

Lemma starts_with_open_free (q s rest : text) :
  open_free q ->
  starts_with q (s ++ lbrace :: rest) = true -> starts_with q s = true.
Proof.
  intros Hq. revert s. induction Hq as [|a q Ha _ IH]; intros s H.
  - reflexivity.
  - destruct s as [|b s]; simpl in H |- *.
    + apply andb_true_iff in H as [H _]. apply N.eqb_eq in H. congruence.
    + apply andb_true_iff in H as [H1 H2]. rewrite H1. simpl. auto.
Qed.

(** ** Splitting and joining *)

Lemma split_from_skip (sep a t : text) :
  split_from sep (length a) (a ++ t) = split_from sep 0 t.
Proof. induction a as [|c a IH]; simpl; auto. Qed.

Lemma split_from_nonempty (sep : text) (n : nat) (t : text) :
  split_from sep n t <> [].
Proof.
  revert n; induction t as [|c t IH]; intros n; simpl; [discriminate|].
  destruct n; [|apply IH].
  destruct (starts_with sep (c :: t)); [discriminate|].
  specialize (IH 0). destruct (split_from sep 0 t); [congruence|discriminate].
Qed.

Lemma replace_pass_eq (result key val : text) :
  replace_pass result (key, val) = replace_all (placeholder key) val result.
Proof. reflexivity. Qed.

Lemma replace_all_nil (pat v : text) : replace_all pat v [] = [].
Proof. reflexivity. Qed.

Lemma replace_all_hit (pat v r : text) :
  pat <> [] -> replace_all pat v (pat ++ r) = v ++ replace_all pat v r.
Proof.
  intros Hp. destruct pat as [|c pat]; [congruence|].
  unfold replace_all.
  change ((c :: pat) ++ r) with (c :: (pat ++ r)).
  cbn [split_from].
  change (c :: pat ++ r) with ((c :: pat) ++ r).
  rewrite starts_with_app.
  replace (length (c :: pat) - 1) with (length pat) by (simpl; lia).
  rewrite split_from_skip.
  pose proof (split_from_nonempty (c :: pat) 0 r) as Hne.
  destruct (split_from (c :: pat) 0 r) as [|p ps]; [congruence|].
  reflexivity.
Qed.

Lemma replace_all_miss (pat v : text) (c : code_unit) (t : text) :
  starts_with pat (c :: t) = false ->
  replace_all pat v (c :: t) = c :: replace_all pat v t.
Proof.
  intros H. unfold replace_all. cbn [split_from]. rewrite H.
  pose proof (split_from_nonempty pat 0 t) as Hne.
  destruct (split_from pat 0 t) as [|p ps]; [congruence|].
  destruct ps; reflexivity.
Qed.

(** ** One pass around a placeholder

    The pattern of a pass is [{{key}}] with a key free of braces.  Such a
    pattern can neither straddle the boundary of another such placeholder
    nor begin inside it, so a pass works separately on the text before the
    placeholder and on the text after it. *)

Lemma replace_all_open_free (q v w post : text) :
  open_free w ->
  replace_all (lbrace :: q) v (w ++ post)
  = w ++ replace_all (lbrace :: q) v post.
Proof.
  intros Hw. induction Hw as [|c w Hc _ IH]; [reflexivity|].
  simpl. rewrite replace_all_miss, IH; [reflexivity|].
  simpl. destruct (N.eqb_spec lbrace c); [congruence|reflexivity].
Qed.

Lemma body_starts_with_inj (k n post : text) :
  brace_free k = true -> brace_free n = true ->
  starts_with (k ++ [rbrace; rbrace]) (n ++ [rbrace; rbrace] ++ post) = true ->
  k = n.
Proof.
  revert n; induction k as [|a k IH]; intros n Hk Hn H.
  - destruct n as [|b n]; [reflexivity|].
    apply brace_free_cons in Hn as (_ & Hb & _).
    simpl in H. apply andb_true_iff in H as [H _].
    apply N.eqb_eq in H. congruence.
  - apply brace_free_cons in Hk as (_ & Ha & Hk).
    destruct n as [|b n]; simpl in H;
      apply andb_true_iff in H as [H1 H2]; apply N.eqb_eq in H1.
    + congruence.
    + subst b. apply brace_free_cons in Hn as (_ & _ & Hn).
      f_equal. eapply IH; eauto.
Qed.

Lemma open_free_head (q rest : text) :
  open_free q -> q <> [] -> starts_with q (lbrace :: rest) = false.
Proof.
  intros Hq Hne. destruct Hq as [|a q Ha _]; [congruence|].
  simpl. destruct (N.eqb_spec a lbrace); [congruence|reflexivity].
Qed.

Lemma body_nonempty (k : text) : k ++ [rbrace; rbrace] <> [].
Proof. destruct k; discriminate. Qed.

(** A pattern that starts before a placeholder ends before it. *)
Lemma placeholder_no_straddle (k n s post : text) :
  brace_free k = true -> s <> [] ->
  starts_with (placeholder k) (s ++ placeholder n ++ post) = true ->
  starts_with (placeholder k) s = true.
Proof.
  intros Hk Hs H. pose proof (open_free_body k Hk) as Hq.
  unfold placeholder in *.
  destruct s as [|c1 [|c2 s]]; [congruence| |]; simpl in H; andb_hyps.
  - exfalso.
    match goal with
    | E : starts_with _ (lbrace :: _) = true |- _ =>
        rewrite (open_free_head _ _ Hq (body_nonempty k)) in E; discriminate
    end.
  - simpl.
    repeat match goal with E : N.eqb _ _ = true |- _ => rewrite E; clear E end.
    simpl. eapply starts_with_open_free; eauto.
Qed.

Lemma replace_all_at_placeholder (k n v post : text) :
  brace_free k = true -> brace_free n = true ->
  replace_all (placeholder k) v (placeholder n ++ post)
  = (if text_eqb k n then v else placeholder n)
    ++ replace_all (placeholder k) v post.
Proof.
  intros Hk Hn. unfold text_eqb.
  destruct (list_eq_dec N.eq_dec k n) as [->|Hne].
  - apply replace_all_hit. discriminate.
  - pose proof (open_free_body n Hn) as Hq.
    assert (Hbody : replace_all (placeholder k) v ((n ++ [rbrace; rbrace]) ++ post)
                    = (n ++ [rbrace; rbrace]) ++ replace_all (placeholder k) v post)
      by (unfold placeholder; now apply replace_all_open_free).
    change (placeholder n ++ post)
      with (lbrace :: lbrace :: (n ++ [rbrace; rbrace]) ++ post).
    rewrite replace_all_miss; [rewrite replace_all_miss; [now rewrite Hbody|]|].
    + unfold placeholder. destruct n as [|b n]; cbn [app starts_with].
      * reflexivity.
      * apply brace_free_cons in Hn as (Hb & _ & _).
        destruct (N.eqb_spec lbrace b); [congruence|].
        now rewrite andb_false_r.
    + unfold placeholder. cbn [starts_with].
      destruct (starts_with (k ++ [rbrace; rbrace])
                  ((n ++ [rbrace; rbrace]) ++ post)) eqn:E;
        [|now rewrite !andb_false_r].
      rewrite <- app_assoc in E.
      apply body_starts_with_inj in E; auto. congruence.
Qed.

Lemma replace_all_around (k n v : text) :
  brace_free k = true -> brace_free n = true ->
  forall pre post,
  replace_all (placeholder k) v (pre ++ placeholder n ++ post)
  = replace_all (placeholder k) v pre
    ++ (if text_eqb k n then v else placeholder n)
    ++ replace_all (placeholder k) v post.
Proof.
  intros Hk Hn pre.
  induction pre as [pre IH] using (induction_ltof1 _ (@length code_unit)).
  unfold ltof in IH. intros post.
  destruct pre as [|c pre].
  - simpl. now apply replace_all_at_placeholder.
  - destruct (starts_with (placeholder k)
                ((c :: pre) ++ placeholder n ++ post)) eqn:E.
    + apply placeholder_no_straddle in E; [|assumption|discriminate].
      destruct (starts_with_inv _ _ E) as [r Hr]. rewrite Hr.
      rewrite <- app_assoc.
      rewrite !replace_all_hit by discriminate.
      rewrite IH, <- app_assoc; [reflexivity|].
      rewrite Hr, length_app. unfold placeholder. simpl. lia.
    + assert (E' : starts_with (placeholder k) (c :: pre) = false).
      { destruct (starts_with (placeholder k) (c :: pre)) eqn:E'; [|reflexivity].
        apply (starts_with_weaken _ _ (placeholder n ++ post)) in E'.
        congruence. }
      change ((c :: pre) ++ placeholder n ++ post)
        with (c :: (pre ++ placeholder n ++ post)) in *.
      rewrite !replace_all_miss by assumption.
      rewrite IH by (simpl; lia). reflexivity.
Qed.

(** ** Substitution over a scope *)

Lemma substituteVars_cons (k v : text) (scope : entries) (t : text) :
  substituteVars ((k, v) :: scope) t
  = substituteVars scope (replace_all (placeholder k) v t).
Proof. reflexivity. Qed.

Lemma substituteVars_app (s1 s2 : entries) (t : text) :
  substituteVars (s1 ++ s2) t = substituteVars s2 (substituteVars s1 t).
Proof. apply fold_left_app. Qed.

Lemma text_eqb_refl (a : text) : text_eqb a a = true.
Proof. unfold text_eqb. destruct (list_eq_dec N.eq_dec a a); congruence. Qed.

Lemma text_eqb_eq (a b : text) : text_eqb a b = true <-> a = b.
Proof.
  unfold text_eqb. destruct (list_eq_dec N.eq_dec a b); split; congruence.
Qed.

Lemma text_eqb_neq (a b : text) : a <> b -> text_eqb a b = false.
Proof.
  unfold text_eqb. destruct (list_eq_dec N.eq_dec a b); congruence.
Qed.

(** A placeholder whose name is not a key survives every pass, and the
    passes work on both sides of it independently. *)
Lemma substituteVars_around (scope : entries) (n : text) :
  all_brace_free (keys scope) -> brace_free n = true ->
  ~ In n (keys scope) ->
  forall pre post,
  substituteVars scope (pre ++ placeholder n ++ post)
  = substituteVars scope pre ++ placeholder n ++ substituteVars scope post.
Proof.
  intros Hk Hn. induction scope as [|[k v] scope IH]; intros Hnot pre post.
  - reflexivity.
  - inversion Hk as [|? ? Hk1 Hk2]; subst.
    rewrite !substituteVars_cons.
    rewrite replace_all_around by assumption.
    rewrite text_eqb_neq by (intros ->; apply Hnot; now left).
    apply IH; [assumption|]. intros Hin. apply Hnot. now right.
Qed.

(** [substituteAll] is [substituteVars] over the effective scope. *)
Lemma output_passes_scope (i : nat) (l : list (nat * PromptChainStep)) (t : text) :
  fold_left (output_pass i) l t
  = substituteVars
      (flat_map
         (fun entry : nat * PromptChainStep =>
            if (fst entry <? i) && truthy (output (snd entry))
            then [(output_name (fst entry), or_empty (output (snd entry)))]
            else []) l) t.
Proof.
  revert t; induction l as [|[idx step] l IH]; intros t; [reflexivity|].
  cbn [fold_left flat_map fst snd]. rewrite IH.
  unfold output_pass at 1.
  destruct ((idx <? i) && truthy (output step)); reflexivity.
Qed.

Lemma substituteAll_scope (g : entries) (steps : list PromptChainStep)
  (t : text) (i : nat) :
  substituteAll g steps t i = substituteVars (effective_scope g steps i) t.
Proof.
  unfold substituteAll, effective_scope.
  rewrite substituteVars_app. apply output_passes_scope.
Qed.

(** The names [output_N] are free of braces. *)
Lemma uint_brace_free (d : Decimal.uint) :
  brace_free (str (NilEmpty.string_of_uint d)) = true.
Proof. induction d; simpl; auto. Qed.

Lemma output_name_brace_free (idx : nat) : brace_free (output_name idx) = true.
Proof.
  unfold output_name, show_nat. rewrite brace_free_app.
  now rewrite uint_brace_free.
Qed.

Lemma keys_prior_outputs_brace_free (steps : list PromptChainStep) (i : nat) :
  all_brace_free (keys (prior_outputs steps i)).
Proof.
  unfold prior_outputs, all_brace_free.
  induction (indexed steps) as [|[idx step] l IH]; [constructor|].
  cbn [flat_map fst snd].
  destruct ((idx <? i) && truthy (output step)); [|exact IH].
  constructor; [apply output_name_brace_free|exact IH].
Qed.

Lemma keys_effective_scope_brace_free (g : entries)
  (steps : list PromptChainStep) (i : nat) :
  all_brace_free (keys g) -> all_brace_free (keys (effective_scope g steps i)).
Proof.
  intros Hg. unfold effective_scope, keys. rewrite map_app.
  apply Forall_app. split; [exact Hg|apply keys_prior_outputs_brace_free].
Qed.

(** ** Texts without a placeholder of the scope *)

Lemma occurs_cons (pat : text) (c : code_unit) (t : text) :
  occurs pat t -> occurs pat (c :: t).
Proof. intros (pre & post & ->). now exists (c :: pre), post. Qed.

Lemma replace_all_absent (pat v t : text) :
  ~ occurs pat t -> replace_all pat v t = t.
Proof.
  induction t as [|c t IH]; intros H; [reflexivity|].
  rewrite replace_all_miss.
  - rewrite IH; [reflexivity|]. intros Ho. apply H. now apply occurs_cons.
  - destruct (starts_with pat (c :: t)) eqn:E; [|reflexivity].
    exfalso. apply H. destruct (starts_with_inv _ _ E) as [r Hr].
    exists [], r. exact Hr.
Qed.

Lemma substituteVars_absent (scope : entries) (t : text) :
  (forall k, In k (keys scope) -> ~ occurs (placeholder k) t) ->
  substituteVars scope t = t.
Proof.
  induction scope as [|[k v] scope IH]; intros H; [reflexivity|].
  rewrite substituteVars_cons, replace_all_absent.
  - apply IH. intros k' Hk'. apply H. now right.
  - apply H. now left.
Qed.

(** ** The pieces of a split *)

Lemma includes_unfold (pat t : text) :
  includes pat t
  = starts_with pat t || match t with [] => false | _ :: t' => includes pat t' end.
Proof. destruct t; reflexivity. Qed.

Lemma includes_occurs (pat t : text) : includes pat t = true <-> occurs pat t.
Proof.
  split.
  - induction t as [|c t IH]; rewrite includes_unfold; intros H.
    + rewrite orb_false_r in H.
      destruct (starts_with_inv _ _ H) as [r Hr]. now exists [], r.
    + apply orb_true_iff in H as [H|H].
      * destruct (starts_with_inv _ _ H) as [r Hr]. now exists [], r.
      * now apply occurs_cons, IH.
  - intros (pre & post & ->). induction pre as [|c pre IH].
    + rewrite includes_unfold. simpl app. now rewrite starts_with_app.
    + rewrite includes_unfold.
      change ((c :: pre) ++ pat ++ post) with (c :: (pre ++ pat ++ post)).
      cbv beta iota. rewrite IH. apply orb_true_r.
Qed.

Lemma not_occurs_includes (pat t : text) :
  includes pat t = false -> ~ occurs pat t.
Proof. intros H Ho. apply includes_occurs in Ho. congruence. Qed.

Lemma split_from_hit (pat r : text) :
  pat <> [] -> split_from pat 0 (pat ++ r) = [] :: split_from pat 0 r.
Proof.
  intros Hp. destruct pat as [|c pat]; [congruence|].
  change ((c :: pat) ++ r) with (c :: (pat ++ r)).
  cbn [split_from].
  change (c :: pat ++ r) with ((c :: pat) ++ r).
  rewrite starts_with_app.
  replace (length (c :: pat) - 1) with (length pat) by (simpl; lia).
  now rewrite split_from_skip.
Qed.

Lemma split_from_miss (pat : text) (c : code_unit) (t : text) :
  starts_with pat (c :: t) = false ->
  split_from pat 0 (c :: t) = cons_head c (split_from pat 0 t).
Proof. intros H. cbn [split_from]. now rewrite H. Qed.

(** Induction along the scan of [split]. *)
Lemma split_scan_ind (pat : text) (P : text -> Prop) :
  pat <> [] ->
  P [] ->
  (forall r, P r -> P (pat ++ r)) ->
  (forall c t, starts_with pat (c :: t) = false -> P t -> P (c :: t)) ->
  forall t, P t.
Proof.
  intros Hp Hnil Hhit Hmiss t.
  induction t as [t IH] using (induction_ltof1 _ (@length code_unit)).
  unfold ltof in IH. destruct t as [|c t]; [exact Hnil|].
  destruct (starts_with pat (c :: t)) eqn:E.
  - destruct (starts_with_inv _ _ E) as [r Hr]. rewrite Hr.
    apply Hhit, IH. rewrite Hr, length_app.
    destruct pat; [congruence|simpl; lia].
  - apply Hmiss; [exact E|]. apply IH. simpl. lia.
Qed.

(** Joining the pieces with the separator gives the text back. *)
Lemma join_split_from (pat t : text) :
  pat <> [] -> join pat (split_from pat 0 t) = t.
Proof.
  intros Hp. fold (replace_all pat pat t). revert t.
  apply (split_scan_ind pat); auto.
  - intros r IH. now rewrite replace_all_hit, IH.
  - intros c t E IH. now rewrite replace_all_miss, IH.
Qed.

Lemma occurs_nil_inv (pat : text) : pat <> [] -> ~ occurs pat [].
Proof.
  intros Hp (pre & post & H). symmetry in H.
  apply app_eq_nil in H as [_ H]. apply app_eq_nil in H as [H _]. congruence.
Qed.

(** The first piece is a prefix of the text. *)
Lemma first_piece_prefix (pat t : text) :
  pat <> [] ->
  exists rest, t = hd [] (split_from pat 0 t) ++ rest.
Proof.
  intros Hp. revert t. apply (split_scan_ind pat); auto.
  - now exists [].
  - intros r _. rewrite split_from_hit by assumption. now exists (pat ++ r).
  - intros c t E [rest Hrest]. rewrite split_from_miss by assumption.
    pose proof (split_from_nonempty pat 0 t) as Hne.
    destruct (split_from pat 0 t) as [|p ps]; [congruence|].
    simpl in *. exists rest. now rewrite <- Hrest.
Qed.

(** No piece contains the separator: the cut is exhaustive. *)
Lemma pieces_separator_free (pat t : text) :
  pat <> [] ->
  Forall (fun piece => ~ occurs pat piece) (split_from pat 0 t).
Proof.
  intros Hp. revert t. apply (split_scan_ind pat); auto.
  - repeat constructor. now apply occurs_nil_inv.
  - intros r IH. rewrite split_from_hit by assumption.
    constructor; [now apply occurs_nil_inv|exact IH].
  - intros c t E IH. rewrite split_from_miss by assumption.
    destruct (first_piece_prefix pat t Hp) as [rest Hrest].
    pose proof (split_from_nonempty pat 0 t) as Hne.
    destruct (split_from pat 0 t) as [|p ps]; [congruence|].
    simpl in Hrest. apply Forall_cons_iff in IH as [Hp1 Hps].
    constructor; [|exact Hps].
    intros ([|c' pre] & post & Heq).
    + simpl in Heq.
      assert (starts_with pat (c :: t) = true); [|congruence].
      rewrite Hrest.
      change (c :: p ++ rest) with ((c :: p) ++ rest).
      rewrite Heq, <- app_assoc. apply starts_with_app.
    + simpl in Heq. injection Heq as _ Heq.
      apply Hp1. now exists pre, post.
Qed.

Lemma placeholder_nonempty (k : text) : placeholder k <> [].
Proof. discriminate. Qed.

(** ** The resolver: claims about [substituteVars] and [substituteAll] *)

Lemma brace_free_not_occurs (k t : text) :
  brace_free t = true -> ~ occurs (placeholder k) t.
Proof.
  intros Ht (pre & post & ->).
  rewrite brace_free_app in Ht. apply andb_true_iff in Ht as [_ Ht].
  unfold placeholder in Ht. simpl in Ht. discriminate.
Qed.

Lemma substituteVars_plain (scope : entries) (t : text) :
  brace_free t = true -> substituteVars scope t = t.
Proof.
  intros Ht. apply substituteVars_absent.
  intros k _. now apply brace_free_not_occurs.
Qed.

Lemma keys_app (s1 s2 : entries) : keys (s1 ++ s2) = keys s1 ++ keys s2.
Proof. apply map_app. Qed.

(** C6. Unresolved placeholders pass through verbatim.  Names are
    identifiers, hence free of braces.  A placeholder [{{n}}] whose name is
    not a key of the scope is found again in the result, between the results
    of the text before it and of the text after it; this holds for
    [substituteVars] and, with the effective scope of a stage, for
    [substituteAll].  No error can arise, both functions being total, and
    [resolve("Hello {{missing}}", {})] is ["Hello {{missing}}"]. *)
Theorem unresolved_placeholders_pass_through :
  (forall (variables : entries) (n pre post : text),
      all_brace_free (keys variables) ->
      brace_free n = true ->
      ~ In n (keys variables) ->
      substituteVars variables (pre ++ placeholder n ++ post)
      = substituteVars variables pre ++ placeholder n
        ++ substituteVars variables post)
  /\ (forall (globalVariables : entries) (steps : list PromptChainStep)
        (i : nat) (n pre post : text),
      all_brace_free (keys globalVariables) ->
      brace_free n = true ->
      ~ In n (keys (effective_scope globalVariables steps i)) ->
      substituteAll globalVariables steps (pre ++ placeholder n ++ post) i
      = substituteAll globalVariables steps pre i ++ placeholder n
        ++ substituteAll globalVariables steps post i)
  /\ substituteVars [] (str "Hello {{missing}}") = str "Hello {{missing}}"
  /\ (forall steps, substituteAll [] steps (str "Hello {{missing}}") 0
                    = str "Hello {{missing}}").
Proof.
  split; [|split; [|split]].
  - intros variables n pre post Hk Hn Hnot.
    now apply substituteVars_around.
  - intros g steps i n pre post Hk Hn Hnot.
    rewrite !substituteAll_scope.
    apply substituteVars_around; auto.
    now apply keys_effective_scope_brace_free.
  - reflexivity.
  - intros steps. rewrite substituteAll_scope.
    unfold effective_scope, prior_outputs. simpl app.
    induction (indexed steps) as [|[idx step] l IH]; [reflexivity|].
    cbn [flat_map fst snd].
    replace (idx <? 0) with false by (symmetry; apply Nat.ltb_ge; lia).
    exact IH.
Qed.

Lemma unresolved_placeholders_witness :
  substituteVars [(str "name", str "Ada")]
    (str "Hi {{name}}, see " ++ placeholder (str "missing") ++ str "!")
  = substituteVars [(str "name", str "Ada")] (str "Hi {{name}}, see ")
    ++ placeholder (str "missing")
    ++ substituteVars [(str "name", str "Ada")] (str "!").
Proof.
  apply (proj1 unresolved_placeholders_pass_through).
  - repeat constructor.
  - reflexivity.
  - simpl. intros [H|[]]. discriminate.
Defined.

(** C9. Conditional idempotence.  When the result of a resolution contains
    no placeholder [{{n}}] for a name [n] of the scope, resolving it again
    with the same scope changes nothing; for [substituteVars], and for
    [substituteAll] with the effective scope of the stage. *)
Theorem resolve_twice_is_noop_when_resolved :
  (forall (variables : entries) (T : text),
      (forall n, In n (keys variables) ->
                 ~ occurs (placeholder n) (substituteVars variables T)) ->
      substituteVars variables (substituteVars variables T)
      = substituteVars variables T)
  /\ (forall (globalVariables : entries) (steps : list PromptChainStep)
        (i : nat) (T : text),
      (forall n, In n (keys (effective_scope globalVariables steps i)) ->
                 ~ occurs (placeholder n)
                     (substituteAll globalVariables steps T i)) ->
      substituteAll globalVariables steps
        (substituteAll globalVariables steps T i) i
      = substituteAll globalVariables steps T i).
Proof.
  split.
  - intros variables T H. now apply substituteVars_absent.
  - intros g steps i T H.
    rewrite (substituteAll_scope g steps (substituteAll g steps T i)).
    now apply substituteVars_absent.
Qed.

Lemma resolve_twice_witness :
  let variables := [(str "name", str "Ada"); (str "job", str "poet")] in
  let T := str "{{name}} is a {{job}} and {{name}} likes {{other}}" in
  substituteVars variables T = str "Ada is a poet and Ada likes {{other}}"
  /\ substituteVars variables (substituteVars variables T)
     = substituteVars variables T.
Proof.
  split; [reflexivity|].
  apply (proj1 resolve_twice_is_noop_when_resolved).
  intros n Hn. apply not_occurs_includes.
  simpl in Hn. destruct Hn as [<-|[<-|[]]]; reflexivity.
Defined.

(** C3, as the code has it.  Resolution is a sequence of passes, one for
    each entry of the scope in its iteration order.  A pass cuts the current
    text at every occurrence of its placeholder: no piece contains the
    placeholder any more and the pieces joined with it give the text back.
    The value is put between the pieces without being scanned in that pass
    and without having been seen by the earlier passes; the passes of the
    later entries do scan it.  [substituteAll] runs the passes of the global
    variables and then those of the earlier outputs. *)
Theorem passes_exhaustive_in_scope_order :
  (forall key t : text,
      Forall (fun piece => ~ occurs (placeholder key) piece)
        (split (placeholder key) t)
      /\ join (placeholder key) (split (placeholder key) t) = t)
  /\ (forall (before after : entries) (key val t : text),
      substituteVars (before ++ (key, val) :: after) t
      = substituteVars after
          (join val (split (placeholder key) (substituteVars before t))))
  /\ (forall (globalVariables : entries) (steps : list PromptChainStep)
        (i : nat) (t : text),
      substituteAll globalVariables steps t i
      = substituteVars (globalVariables ++ prior_outputs steps i) t).
Proof.
  split; [|split].
  - intros key t. split.
    + apply pieces_separator_free, placeholder_nonempty.
    + apply join_split_from, placeholder_nonempty.
  - intros before after key val t. now rewrite substituteVars_app.
  - intros. apply substituteAll_scope.
Qed.

(** C3 fails as stated: a placeholder brought in by the value of [a] is
    replaced in the same call when [b] comes after [a] in the scope, and is
    kept when [b] comes first. *)
Lemma replacement_text_is_scanned_again :
  substituteVars [(str "a", str "{{b}}"); (str "b", str "X")] (str "{{a}}")
  = str "X"
  /\ substituteVars [(str "b", str "X"); (str "a", str "{{b}}")] (str "{{a}}")
     = str "{{b}}".
Proof. split; reflexivity. Qed.

(** A remark on [substituteAll] as a function of an arbitrary scope.  The
    passes of the global variables come first: were a global variable named
    [output_N], the placeholder [{{output_N}}] would be replaced by its
    value, whatever the outputs of the earlier stages.  The chainer itself
    holds no such variable: its global scope has the one key [topic]. *)
Theorem global_variable_wins_over_output
  (globalVariables : entries) (steps : list PromptChainStep)
  (i idx : nat) (G pre post : text)
  (Hnodup : NoDup (keys globalVariables))
  (Hkeys : all_brace_free (keys globalVariables))
  (Hin : In (output_name idx, G) globalVariables)
  (HG : brace_free G = true)
  (Hpre : brace_free pre = true) (Hpost : brace_free post = true) :
  substituteAll globalVariables steps
    (pre ++ placeholder (output_name idx) ++ post) i
  = pre ++ G ++ post.
Proof.
  rewrite substituteAll_scope. unfold effective_scope.
  destruct (in_split _ _ Hin) as (g1 & g2 & ->).
  rewrite keys_app in Hnodup, Hkeys. simpl in Hnodup, Hkeys.
  apply Forall_app in Hkeys as [Hk1 Hk2].
  apply NoDup_remove_2 in Hnodup.
  rewrite <- app_assoc, substituteVars_app.
  rewrite substituteVars_around; auto using output_name_brace_free.
  - rewrite (substituteVars_plain g1 pre Hpre), (substituteVars_plain g1 post Hpost).
    rewrite <- app_comm_cons, substituteVars_cons.
    rewrite replace_all_around by apply output_name_brace_free.
    rewrite text_eqb_refl.
    rewrite !replace_all_absent by now apply brace_free_not_occurs.
    apply substituteVars_plain.
    rewrite !brace_free_app, Hpre, HG, Hpost. reflexivity.
  - intros Hin1. apply Hnodup. apply in_or_app. now left.
Qed.

(** ** The store of steps *)

Lemma length_update {A : Type} (i : nat) (f : A -> A) (l : list A) :
  length (update i f l) = length l.
Proof. revert i; induction l; intros [|i]; simpl; auto. Qed.

Lemma nth_error_update_same {A : Type} (i : nat) (f : A -> A) (l : list A) :
  nth_error (update i f l) i = option_map f (nth_error l i).
Proof. revert i; induction l; intros [|i]; simpl; auto. Qed.

Lemma nth_error_update_other {A : Type} (i j : nat) (f : A -> A) (l : list A) :
  i <> j -> nth_error (update i f l) j = nth_error l j.
Proof.
  revert i j; induction l; intros [|i] [|j] H; simpl; auto; congruence.
Qed.

Lemma update_update {A : Type} (i : nat) (f h : A -> A) (l : list A) :
  update i f (update i h l) = update i (fun x => f (h x)) l.
Proof. revert i; induction l; intros [|i]; simpl; auto; now f_equal. Qed.

Lemma update_ext {A : Type} (i : nat) (f h : A -> A) (l : list A) :
  (forall x, f x = h x) -> update i f l = update i h l.
Proof.
  intros E. revert i; induction l; intros [|i]; simpl; auto; now f_equal.
Qed.

Lemma streamed_store (i : nat) (cs : list text) (st : Status) (o : text)
  (S : list PromptChainStep) :
  fold_left (on_chunk i) cs (update i (stage_after st o) S)
  = update i (stage_after st (o ++ concat cs)) S.
Proof.
  revert o; induction cs as [|c cs IH]; intros o; simpl.
  - now rewrite app_nil_r.
  - assert (E : on_chunk i (update i (stage_after st o) S) c
                = update i (stage_after st (o ++ c)) S)
      by (unfold on_chunk; rewrite update_update; now apply update_ext).
    now rewrite E, IH, app_assoc.
Qed.

(** One turn of the loop, in closed form. *)
Lemma stage_turn (i : nat) (cs : list text) (st : Status)
  (S : list PromptChainStep) :
  update i (set_status st)
    (fold_left (on_chunk i) cs
       (update i (set_output []) (update i (set_status running) S)))
  = update i (stage_after st (concat cs)) S.
Proof.
  assert (E : update i (set_output []) (update i (set_status running) S)
              = update i (stage_after running []) S)
    by (rewrite update_update; now apply update_ext).
  rewrite E, streamed_store, update_update.
  now apply update_ext.
Qed.

(** *** What a request depends on *)

Lemma prior_outputs_shift (F : nat * PromptChainStep -> entries)
  (S : list PromptChainStep) (a i : nat) :
  (forall idx s, i <= idx -> F (idx, s) = []) ->
  flat_map F (combine (seq a (length S)) S)
  = flat_map F (combine (seq a (length (firstn (i - a) S))) (firstn (i - a) S)).
Proof.
  intros HF. revert a; induction S as [|x S IH]; intros a.
  - now rewrite firstn_nil.
  - destruct (i - a) as [|d] eqn:E.
    + simpl. rewrite HF by lia. rewrite IH.
      replace (i - Datatypes.S a) with 0 by lia. reflexivity.
    + simpl. f_equal. rewrite IH.
      replace (i - Datatypes.S a) with d by lia. reflexivity.
Qed.

Lemma prior_outputs_firstn (S : list PromptChainStep) (i : nat) :
  prior_outputs S i = prior_outputs (firstn i S) i.
Proof.
  unfold prior_outputs, indexed.
  rewrite (prior_outputs_shift _ S 0 i).
  - now rewrite Nat.sub_0_r.
  - intros idx s H. cbn [fst snd].
    replace (idx <? i) with false by (symmetry; apply Nat.ltb_ge; lia).
    reflexivity.
Qed.

Lemma firstn_agree {A : Type} (l1 l2 : list A) (i : nat) :
  (forall j, j < i -> nth_error l1 j = nth_error l2 j) ->
  firstn i l1 = firstn i l2.
Proof.
  intros H. apply nth_error_ext. intros n. rewrite !nth_error_firstn.
  destruct (Nat.ltb_spec n i); auto.
Qed.

Lemma substituteAll_agree (g : entries) (S1 S2 : list PromptChainStep)
  (t : text) (i : nat) :
  (forall j, j < i -> nth_error S1 j = nth_error S2 j) ->
  substituteAll g S1 t i = substituteAll g S2 t i.
Proof.
  intros H. rewrite !substituteAll_scope. unfold effective_scope.
  rewrite (prior_outputs_firstn S1), (prior_outputs_firstn S2).
  now rewrite (firstn_agree S1 S2 i H).
Qed.

Lemma fullPrompt_agree (g : entries) (S1 S2 : list PromptChainStep) (i : nat) :
  (forall j, j < i -> nth_error S1 j = nth_error S2 j) ->
  data_at S1 i = data_at S2 i ->
  fullPrompt g S1 i = fullPrompt g S2 i.
Proof.
  intros H Hd. unfold fullPrompt. rewrite Hd.
  now rewrite !(substituteAll_agree g S1 S2 _ i H).
Qed.

Lemma data_at_update (i j : nat) (f : PromptChainStep -> PromptChainStep)
  (S : list PromptChainStep) :
  (forall s, promptData (f s) = promptData s) ->
  data_at (update i f S) j = data_at S j.
Proof.
  intros Hf. unfold data_at.
  destruct (Nat.eq_dec i j) as [->|Hne].
  - rewrite nth_error_update_same. destruct (nth_error S j); simpl; auto.
  - now rewrite nth_error_update_other.
Qed.

Lemma fullPrompt_update (g : entries) (i j : nat)
  (f : PromptChainStep -> PromptChainStep) (S : list PromptChainStep) :
  i <= j -> (forall s, promptData (f s) = promptData s) ->
  fullPrompt g (update j f S) i = fullPrompt g S i.
Proof.
  intros Hij Hf. apply fullPrompt_agree.
  - intros k Hk. apply nth_error_update_other. lia.
  - now apply data_at_update.
Qed.

(** *** The loop, one turn at a time *)

Lemma runLoop_turn (tp : adapter) (g : entries) (todo i : nat)
  (S : list PromptChainStep) (log : list (text * settled)) :
  i < length S ->
  let request := fullPrompt g S i in
  let r := tp i request in
  let S' := update i (stage_after (status_for (outcome r)) (concat (chunks r))) S in
  runLoop tp g (Datatypes.S todo) i S log
  = match outcome r with
    | fulfilled => runLoop tp g todo (i + 1) S' (log ++ [(request, fulfilled)])
    | rejected => {| final_steps := S'; sent := log ++ [(request, rejected)];
                     returned := fulfilled |}
    end.
Proof.
  intros Hi. cbn zeta. cbn [runLoop].
  destruct (Nat.ltb_spec i (length S)) as [_|]; [|lia].
  rewrite update_update.
  rewrite !(fullPrompt_update g i i) by auto.
  destruct (outcome (tp i (fullPrompt g S i))) eqn:E.
  - f_equal. rewrite <- stage_turn. now rewrite update_update.
  - f_equal. rewrite <- stage_turn. now rewrite update_update.
Qed.

Lemma runLoop_end (tp : adapter) (g : entries) (todo i : nat)
  (S : list PromptChainStep) (log : list (text * settled)) :
  length S <= i ->
  runLoop tp g todo i S log
  = {| final_steps := S; sent := log; returned := fulfilled |}.
Proof.
  intros Hi. destruct todo; [reflexivity|]. cbn [runLoop].
  destruct (Nat.ltb_spec i (length S)); [lia|reflexivity].
Qed.

(** ** The run as a whole *)

Ltac no_call :=
  match goal with
  | H : nth_error [] ?j = Some _ |- _ => destruct j; discriminate H
  end.

Lemma runLoop_facts (tp : adapter) (g : entries) :
  forall todo i S0 log,
    length S0 <= i + todo ->
    exists new, run_facts tp g i S0 log (runLoop tp g todo i S0 log) new.
Proof.
  induction todo as [|todo IH]; intros i S0 log Hlen.
  - exists []. rewrite runLoop_end by lia. unfold run_facts; simpl.
    rewrite app_nil_r. repeat split; auto; try lia; no_call.
  - destruct (le_lt_dec (length S0) i) as [Hge|Hlt].
    + exists []. rewrite runLoop_end by lia. unfold run_facts; simpl.
      rewrite app_nil_r. repeat split; auto; try lia; no_call.
    + rewrite runLoop_turn by assumption. cbv zeta.
      set (req := fullPrompt g S0 i).
      set (S1 := update i _ S0).
      assert (Hreq : fullPrompt g S1 i = req)
        by (apply fullPrompt_update; auto).
      assert (Hdata : forall j, data_at S1 j = data_at S0 j)
        by (intros j; apply data_at_update; auto).
      assert (Hi : nth_error S1 i
                   = Some (stage_after (status_for (outcome (tp i req)))
                             (concat (chunks (tp i req)))
                             (nth i S0 (stage_after idle [] (mk_step "" ""))))).
      { unfold S1. rewrite nth_error_update_same.
        now rewrite (nth_error_nth' S0 (stage_after idle [] (mk_step "" "")) Hlt). }
      destruct (outcome (tp i req)) eqn:Eout.
      * destruct (IH (i + 1) S1 (log ++ [(req, fulfilled)])) as [new Hnew].
        { unfold S1. rewrite length_update. lia. }
        destruct Hnew as (Hs & Hret & Hl & Hd & Hlow & Hhigh & Hcalls & Hall).
        assert (Hsame : forall j, j <= i ->
                  nth_error (final_steps
                     (runLoop tp g todo (i + 1) S1 (log ++ [(req, fulfilled)]))) j
                  = nth_error S1 j) by (intros j Hj; apply Hlow; lia).
        exists ((req, fulfilled) :: new). unfold run_facts.
        split; [now rewrite Hs, <- app_assoc|].
        split; [exact Hret|].
        split; [rewrite Hl; unfold S1; apply length_update|].
        split; [intros j; now rewrite Hd|].
        split; [intros j Hj; rewrite Hlow by lia;
                unfold S1; apply nth_error_update_other; lia|].
        split; [intros j Hj; simpl in Hj; rewrite Hhigh by lia;
                unfold S1; apply nth_error_update_other; lia|].
        split.
        -- intros [|j] rq out Hnth; simpl in Hnth.
           ++ injection Hnth as <- <-. rewrite Nat.add_0_r.
              unfold status_at, output_at. rewrite Hsame by lia. rewrite Hi.
              simpl.
              repeat split; auto; try discriminate.
              etransitivity; [symmetry; exact Hreq|]. apply fullPrompt_agree.
              ** intros k Hk. symmetry. apply Hsame. lia.
              ** now rewrite Hd.
           ++ destruct (Hcalls j rq out Hnth) as (H1 & H2 & H3 & H4 & H5).
              replace (i + S j) with (i + 1 + j) by lia.
              repeat split; auto. intros Hr. simpl. f_equal. auto.
        -- intros HF. apply Forall_cons_iff in HF as [_ HF].
           specialize (Hall HF). unfold S1 in Hall.
           rewrite length_update in Hall. simpl. lia.
      * exists [(req, rejected)]. unfold run_facts; simpl.
        split; [reflexivity|]. split; [reflexivity|].
        split; [unfold S1; apply length_update|].
        split; [exact Hdata|].
        split; [intros j Hj; unfold S1; apply nth_error_update_other; lia|].
        split; [intros j Hj; unfold S1; apply nth_error_update_other; lia|].
        split.
        -- intros [|j] rq out Hnth; simpl in Hnth.
           ++ injection Hnth as <- <-. rewrite Nat.add_0_r.
              unfold status_at, output_at. rewrite Hi. simpl.
              repeat split; auto.
           ++ destruct j; discriminate.
        -- intros HF. apply Forall_cons_iff in HF as [HF _]. discriminate.
Qed.

(** The bound [length steps] given by [runChain] never cuts the loop short:
    a larger bound gives the same run. *)
Lemma runLoop_bound_enough (tp : adapter) (g : entries) (extra : nat) :
  forall todo i S0 log,
    length S0 <= i + todo ->
    runLoop tp g (todo + extra) i S0 log = runLoop tp g todo i S0 log.
Proof.
  induction todo as [|todo IH]; intros i S0 log Hlen.
  - now rewrite !runLoop_end by lia.
  - destruct (le_lt_dec (length S0) i) as [Hge|Hlt].
    + now rewrite !runLoop_end by lia.
    + cbn [Nat.add]. rewrite !runLoop_turn by assumption. cbv zeta.
      destruct (outcome (tp i (fullPrompt g S0 i))); [|reflexivity].
      apply IH. rewrite length_update. lia.
Qed.

Lemma runChain_facts (tp : adapter) (g : entries) (steps : list PromptChainStep) :
  run_facts tp g 0 steps [] (runChain tp g steps) (sent (runChain tp g steps)).
Proof.
  destruct (runLoop_facts tp g (length steps) 0 steps []) as [new H];
    [lia|].
  unfold runChain. pose proof H as (Hs & _). simpl in Hs. rewrite Hs.
  exact H.
Qed.

(** ** The chain executor: claims about [runChain] *)

Lemma status_at_In (store : list PromptChainStep) (j : nat) (st : Status) :
  status_at store j = Some st ->
  exists s, nth_error store j = Some s /\ status s = st.
Proof.
  unfold status_at. destruct (nth_error store j) as [s|]; simpl; [|discriminate].
  intros H. injection H as H. now exists s.
Qed.

Lemma earlier_calls_fulfilled (tp : adapter) (g : entries)
  (steps : list PromptChainStep) (i k : nat) (req : text) (out : settled) :
  nth_error (sent (runChain tp g steps)) i = Some (req, out) ->
  k < i ->
  status_at (final_steps (runChain tp g steps)) k = Some completed.
Proof.
  intros Hi Hk.
  destruct (runChain_facts tp g steps) as (_ & _ & _ & _ & _ & _ & Hcalls & _).
  assert (Hlt : i < length (sent (runChain tp g steps)))
    by (apply nth_error_Some; congruence).
  destruct (nth_error (sent (runChain tp g steps)) k) as [[rk ok]|] eqn:Ek.
  - destruct (Hcalls k rk ok Ek) as (_ & _ & Hst & _ & Hlast).
    simpl in Hst. destruct ok; [exact Hst|].
    specialize (Hlast eq_refl). lia.
  - apply nth_error_None in Ek. lia.
Qed.

(** C2, as the code has it.  In a chain [A; B; C] where the call for [A]
    succeeds and the call for [B] is rejected, the run makes these two calls
    and no other, leaves [A] completed and [B] in error, and does not touch
    [C]: its status and its output are what they were before the run, idle
    and undefined for a step that has never been run. *)
Theorem failure_halts_downstream
  (tp : adapter) (g : entries) (A B C : PromptChainStep)
  (HA : forall req, outcome (tp 0 req) = fulfilled)
  (HB : forall req, outcome (tp 1 req) = rejected) :
  let r := runChain tp g [A; B; C] in
  map status (final_steps r) = [completed; error; status C]
  /\ nth_error (final_steps r) 2 = Some C
  /\ map snd (sent r) = [fulfilled; rejected].
Proof.
  cbv zeta. unfold runChain. cbn [length].
  rewrite runLoop_turn by (simpl; lia). cbv zeta. rewrite HA.
  rewrite runLoop_turn by (rewrite length_update; simpl; lia).
  cbv zeta. rewrite HB. cbn [final_steps sent].
  repeat split; reflexivity.
Qed.

Lemma failure_halts_downstream_witness :
  let r := runChain second_call_fails [(str "topic", str "bees")]
             [mk_step "A" "one"; mk_step "B" "two"; mk_step "C" "three"] in
  map status (final_steps r) = [completed; error; idle]
  /\ nth_error (final_steps r) 2 = Some (mk_step "C" "three")
  /\ map snd (sent r) = [fulfilled; rejected].
Proof.
  apply (failure_halts_downstream second_call_fails [(str "topic", str "bees")]
           (mk_step "A" "one") (mk_step "B" "two") (mk_step "C" "three"));
    intros req; reflexivity.
Defined.

(** C2 fails as stated: [runChain] resets a step only when its turn comes,
    and nothing else resets the steps.  After a first run in which every
    call succeeds, a second run on the same chain in which the call for [A]
    succeeds and the call for [B] is rejected leaves [C] completed, with the
    output of the first run. *)
Lemma downstream_stage_keeps_old_state :
  let g := [(str "topic", str "bees")] in
  let chain := [mk_step "A" "one"; mk_step "B" "two"; mk_step "C" "three"] in
  let first := runChain every_call_succeeds g chain in
  let second := runChain second_call_fails g (final_steps first) in
  map status (final_steps first) = [completed; completed; completed]
  /\ map snd (sent second) = [fulfilled; rejected]
  /\ map status (final_steps second) = [completed; error; completed]
  /\ status_at (final_steps second) 2 <> Some idle
  /\ output_at (final_steps second) 2 = Some (Some (str "text")).
Proof. cbv zeta. repeat split; try reflexivity. discriminate. Qed.

(** C5, as the code has it.  The promise of [runChain] is fulfilled, without
    a value, whether or not a call was rejected.  The result of the run is
    to be read from the steps: all of them end completed exactly when no
    call was rejected, and the step of a rejected call ends in error. *)
Theorem run_result_is_in_the_statuses
  (tp : adapter) (g : entries) (steps : list PromptChainStep) :
  let r := runChain tp g steps in
  returned r = fulfilled
  /\ (Forall (fun s => status s = completed) (final_steps r)
      <-> Forall (fun call => snd call = fulfilled) (sent r))
  /\ (forall j req, nth_error (sent r) j = Some (req, rejected) ->
                    status_at (final_steps r) j = Some error).
Proof.
  cbv zeta.
  destruct (runChain_facts tp g steps)
    as (_ & Hret & Hlen & _ & _ & _ & Hcalls & Hall).
  split; [exact Hret|]. split; [split|].
  - intros Hst. apply Forall_forall. intros [req out] Hin.
    apply In_nth_error in Hin as [j Hj].
    destruct (Hcalls j req out Hj) as (_ & _ & Hs & _).
    apply status_at_In in Hs as (s & Hs & Hstat). simpl in Hs.
    apply nth_error_In in Hs.
    rewrite Forall_forall in Hst. specialize (Hst s Hs).
    simpl. destruct out; [reflexivity|]. simpl in Hstat. congruence.
  - intros Hok. specialize (Hall Hok). simpl in Hall.
    apply Forall_forall. intros s Hin.
    apply In_nth_error in Hin as [j Hj].
    assert (Hjl : j < length (sent (runChain tp g steps))).
    { assert (j < length (final_steps (runChain tp g steps)))
        by (apply nth_error_Some; congruence). lia. }
    destruct (nth_error (sent (runChain tp g steps)) j) as [[req out]|] eqn:E;
      [|apply nth_error_None in E; lia].
    destruct (Hcalls j req out E) as (_ & _ & Hs & _).
    rewrite Forall_forall in Hok.
    specialize (Hok _ (nth_error_In _ _ E)). simpl in Hok. subst out.
    unfold status_at in Hs. simpl in Hs. rewrite Hj in Hs. simpl in Hs.
    congruence.
  - intros j req Hj. destruct (Hcalls j req rejected Hj) as (_ & _ & Hs & _).
    exact Hs.
Qed.

(** C5 fails as stated: a run with a rejected call and a run without one
    return the same thing. *)
Lemma failed_run_returns_like_a_successful_one :
  let chain := [mk_step "A" "one"; mk_step "B" "two"] in
  let bad := runChain second_call_fails [] chain in
  let good := runChain every_call_succeeds [] chain in
  returned bad = returned good
  /\ map status (final_steps good) = [completed; completed]
  /\ map status (final_steps bad) = [completed; error]
  /\ map snd (sent bad) = [fulfilled; rejected].
Proof. cbv zeta. repeat split; reflexivity. Qed.

Lemma run_result_witness :
  let chain := [mk_step "A" "one"; mk_step "B" "two"] in
  status_at (final_steps (runChain second_call_fails [] chain)) 1 = Some error.
Proof.
  cbv zeta.
  apply (proj2 (proj2 (run_result_is_in_the_statuses second_call_fails []
                         [mk_step "A" "one"; mk_step "B" "two"]))
           1 (fullPrompt [] [stage_after completed (str "text") (mk_step "A" "one");
                             mk_step "B" "two"] 1)).
  reflexivity.
Defined.

(** *** The scope of a stage *)

Lemma in_indexed_from {A : Type} (l : list A) (a idx : nat) (x : A) :
  In (idx, x) (combine (seq a (length l)) l)
  <-> a <= idx /\ nth_error l (idx - a) = Some x.
Proof.
  revert a; induction l as [|y l IH]; intros a; simpl.
  - split; [tauto|]. intros [_ H]. destruct (idx - a); discriminate.
  - rewrite IH. split.
    + intros [H|[H1 H2]].
      * injection H as <- <-. rewrite Nat.sub_diag. split; [lia|reflexivity].
      * split; [lia|]. replace (idx - a) with (S (idx - S a)) by lia. exact H2.
    + intros [H1 H2]. destruct (idx - a) as [|d] eqn:E.
      * left. injection H2 as ->. f_equal. lia.
      * right. split; [lia|]. replace (idx - S a) with d by lia. exact H2.
Qed.

Lemma in_indexed {A : Type} (l : list A) (idx : nat) (x : A) :
  In (idx, x) (indexed l) <-> nth_error l idx = Some x.
Proof.
  unfold indexed. rewrite in_indexed_from, Nat.sub_0_r.
  split; [tauto|]. split; [lia|assumption].
Qed.

Lemma str_inj (a b : string) : str a = str b -> a = b.
Proof.
  unfold str. intros H.
  rewrite <- (string_of_list_ascii_of_string a),
          <- (string_of_list_ascii_of_string b).
  f_equal. revert H.
  generalize (list_ascii_of_string a) (list_ascii_of_string b).
  induction l as [|x l IH]; intros [|y l']; simpl; intros H;
    try discriminate; [reflexivity|].
  injection H as Hxy Hl. f_equal; [|now apply IH].
  rewrite <- (ascii_N_embedding x), <- (ascii_N_embedding y). now rewrite Hxy.
Qed.

Lemma show_nat_inj (n m : nat) : show_nat n = show_nat m -> n = m.
Proof.
  unfold show_nat. intros H. apply str_inj in H.
  assert (E : NilEmpty.uint_of_string (NilEmpty.string_of_uint (Nat.to_uint n))
              = NilEmpty.uint_of_string (NilEmpty.string_of_uint (Nat.to_uint m)))
    by now rewrite H.
  rewrite !NilEmpty.usu in E. injection E as E.
  rewrite <- (Unsigned.of_to n), <- (Unsigned.of_to m). now rewrite E.
Qed.

Lemma output_name_inj (a b : nat) : output_name a = output_name b -> a = b.
Proof.
  unfold output_name. intros H. apply app_inv_head in H.
  apply show_nat_inj in H. lia.
Qed.

Lemma truthy_spec (o : option text) :
  truthy o = true <-> exists t, o = Some t /\ t <> [].
Proof.
  destruct o as [[|c t]|]; simpl; split; try discriminate.
  - intros (t & H & Hne). injection H as <-. congruence.
  - intros _. exists (c :: t). split; [reflexivity|discriminate].
  - reflexivity.
  - intros (t & H & _). discriminate.
Qed.

Lemma in_prior_outputs (S0 : list PromptChainStep) (i k : nat) (o : text) :
  In (output_name k, o) (prior_outputs S0 i)
  <-> k < i /\ output_at S0 k = Some (Some o) /\ o <> [].
Proof.
  unfold prior_outputs. rewrite in_flat_map. split.
  - intros ([idx s] & Hin & Hs). cbn [fst snd] in Hs.
    apply in_indexed in Hin.
    destruct (Nat.ltb_spec idx i) as [Hlt|]; [|destruct Hs].
    destruct (truthy (output s)) eqn:Et; [|destruct Hs].
    simpl in Hs. destruct Hs as [Hs|[]].
    assert (Hn : output_name idx = output_name k)
      by exact (f_equal fst Hs).
    assert (Ho : or_empty (output s) = o) by exact (f_equal snd Hs).
    apply output_name_inj in Hn. subst idx.
    apply truthy_spec in Et as (t & Ht & Hne).
    rewrite Ht in Ho. simpl in Ho. subst t.
    unfold output_at. rewrite Hin. simpl. rewrite Ht. auto.
  - intros (Hk & Ho & Hne). unfold output_at in Ho.
    destruct (nth_error S0 k) as [s|] eqn:Es; [|discriminate].
    simpl in Ho. injection Ho as Ho.
    exists (k, s). split; [now apply in_indexed|]. cbn [fst snd].
    destruct (Nat.ltb_spec k i); [|lia].
    rewrite Ho. destruct o; [congruence|]. simpl. now left.
Qed.

(** C4, as the code has it.  The scope of the stage of index [i] is made of
    the global variables followed by [output_(k+1)] for the earlier steps
    [k < i] whose output is not empty; the status is not looked at, and an
    earlier step with an empty output contributes nothing.  During a run the
    request of a stage is assembled from that scope, and all the earlier
    steps are completed. *)
Theorem scope_of_a_stage
  (tp : adapter) (g : entries) (steps : list PromptChainStep) :
  (forall (store : list PromptChainStep) (i : nat) (t : text),
      substituteAll g store t i
      = substituteVars (g ++ prior_outputs store i) t)
  /\ (forall (store : list PromptChainStep) (i k : nat) (o : text),
        In (output_name k, o) (prior_outputs store i)
        <-> k < i /\ output_at store k = Some (Some o) /\ o <> [])
  /\ (forall (i : nat) (req : text) (out : settled),
        nth_error (sent (runChain tp g steps)) i = Some (req, out) ->
        req = fullPrompt g (final_steps (runChain tp g steps)) i
        /\ forall k, k < i ->
             status_at (final_steps (runChain tp g steps)) k = Some completed).
Proof.
  split; [|split].
  - intros. apply substituteAll_scope.
  - intros. apply in_prior_outputs.
  - intros i req out Hi. split.
    + destruct (runChain_facts tp g steps)
        as (_ & _ & _ & _ & _ & _ & Hcalls & _).
      now destruct (Hcalls i req out Hi) as (H & _).
    + intros k Hk. eapply earlier_calls_fulfilled; eauto.
Qed.

Lemma scope_of_a_stage_witness :
  let chain := [mk_step "A" "one"; mk_step "B" "was: {{output_1}}"] in
  status_at (final_steps (runChain every_call_succeeds [] chain)) 0
  = Some completed.
Proof.
  cbv zeta.
  refine (proj2 (proj2 (proj2 (scope_of_a_stage every_call_succeeds []
            [mk_step "A" "one"; mk_step "B" "was: {{output_1}}"]))
            1 _ fulfilled _) 0 _).
  - reflexivity.
  - lia.
Defined.

(** C4 fails as stated: a completed step whose output is the empty string
    is not injected; its placeholder stays in the text of the next stage. *)
Lemma empty_output_is_not_in_scope :
  let store := [stage_after completed [] (mk_step "A" "one");
                mk_step "B" "{{output_1}}"] in
  status_at store 0 = Some completed
  /\ output_at store 0 = Some (Some [])
  /\ substituteAll [] store (str "{{output_1}}") 1 = str "{{output_1}}"
  /\ substituteAll [] store (str "{{output_1}}") 1 <> [].
Proof. cbv zeta. repeat split; try reflexivity. discriminate. Qed.

Lemma prior_outputs_one (store : list PromptChainStep) (s : PromptChainStep) :
  nth_error store 0 = Some s ->
  prior_outputs store 1
  = if truthy (output s) then [(output_name 0, or_empty (output s))] else [].
Proof.
  intros H. rewrite prior_outputs_firstn.
  destruct store as [|x store]; [discriminate|].
  injection H as ->. simpl. unfold prior_outputs. simpl.
  now rewrite app_nil_r.
Qed.

Lemma second_stage_gets_first_output (g : entries)
  (store : list PromptChainStep) (o pre post : text) :
  output_at store 0 = Some (Some o) -> o <> [] ->
  all_brace_free (keys g) -> ~ In (output_name 0) (keys g) ->
  substituteAll g store (pre ++ placeholder (output_name 0) ++ post) 1
  = substituteAll g store pre 1 ++ o ++ substituteAll g store post 1.
Proof.
  intros Ho Hne Hk Hnot. unfold output_at in Ho.
  destruct (nth_error store 0) as [s|] eqn:Es; [|discriminate].
  simpl in Ho. injection Ho as Ho.
  rewrite !substituteAll_scope. unfold effective_scope.
  rewrite (prior_outputs_one store s Es), Ho.
  destruct o as [|c o]; [congruence|]. cbn [truthy or_empty].
  rewrite !substituteVars_app.
  rewrite substituteVars_around by (auto using output_name_brace_free).
  cbn [substituteVars fold_left]. rewrite !replace_pass_eq.
  rewrite replace_all_around by apply output_name_brace_free.
  now rewrite text_eqb_refl.
Qed.

(** C7, as the code has it.  Every request sent during a run is the
    concatenation of the five fields of the stage, substituted, under the
    labels Role, Instruction, Context, Constraints and Evaluation in this
    order.  The instruction of the second stage, where it refers to
    [{{output_1}}], carries the final output of the first stage in its place
    provided that this output is not empty and that no global variable has
    the name [output_1]. *)
Theorem requests_are_assembled_in_fixed_order
  (tp : adapter) (g : entries) (steps : list PromptChainStep) :
  let final := final_steps (runChain tp g steps) in
  (forall (i : nat) (req : text) (out : settled),
      nth_error (sent (runChain tp g steps)) i = Some (req, out) ->
      req = str "Role: " ++ substituteAll g final (role (data_at steps i)) i
            ++ newline :: str "Instruction: "
            ++ substituteAll g final (instruction (data_at steps i)) i
            ++ newline :: str "Context: "
            ++ substituteAll g final (context (data_at steps i)) i
            ++ newline :: str "Constraints: "
            ++ substituteAll g final (constraints (data_at steps i)) i
            ++ newline :: str "Evaluation: "
            ++ substituteAll g final (evaluation (data_at steps i)) i)
  /\ (forall (o pre post : text),
        instruction (data_at steps 1)
        = pre ++ placeholder (output_name 0) ++ post ->
        output_at final 0 = Some (Some o) ->
        o <> [] ->
        all_brace_free (keys g) ->
        ~ In (output_name 0) (keys g) ->
        substituteAll g final (instruction (data_at steps 1)) 1
        = substituteAll g final pre 1 ++ o ++ substituteAll g final post 1).
Proof.
  cbv zeta. split.
  - intros i req out Hi.
    destruct (runChain_facts tp g steps)
      as (_ & _ & _ & Hdata & _ & _ & Hcalls & _).
    destruct (Hcalls i req out Hi) as (Hreq & _).
    simpl in Hreq. rewrite Hreq. unfold fullPrompt. now rewrite Hdata.
  - intros o pre post Hins Ho Hne Hk Hnot. rewrite Hins.
    now apply second_stage_gets_first_output.
Qed.

Lemma requests_are_assembled_witness :
  let chain := [mk_step "A" "one"; mk_step "B" "Use ({{output_1}}) now"] in
  let final := final_steps (runChain bees_adapter [] chain) in
  substituteAll [] final (instruction (data_at chain 1)) 1
  = substituteAll [] final (str "Use (") 1 ++ str "Bees are great."
    ++ substituteAll [] final (str ") now") 1.
Proof.
  cbv zeta.
  apply (proj2 (requests_are_assembled_in_fixed_order bees_adapter []
                  [mk_step "A" "one"; mk_step "B" "Use ({{output_1}}) now"])).
  - reflexivity.
  - reflexivity.
  - discriminate.
  - constructor.
  - simpl. tauto.
Defined.

(** C7 fails as stated: when the first stage ends with an empty output, the
    request of the second stage still contains [{{output_1}}]. *)
Lemma empty_first_output_leaves_placeholder :
  let chain := [mk_step "A" "one"; mk_step "B" "{{output_1}}"] in
  let r := runChain no_text [] chain in
  map snd (sent r) = [fulfilled; fulfilled]
  /\ map status (final_steps r) = [completed; completed]
  /\ output_at (final_steps r) 0 = Some (Some [])
  /\ option_map fst (nth_error (sent r) 1)
     = Some (str "Role: " ++ newline :: str "Instruction: {{output_1}}"
             ++ newline :: str "Context: " ++ newline :: str "Constraints: "
             ++ newline :: str "Evaluation: ")
  /\ option_map fst (nth_error (sent r) 1)
     <> Some (str "Role: " ++ newline :: str "Instruction: "
              ++ newline :: str "Context: " ++ newline :: str "Constraints: "
              ++ newline :: str "Evaluation: ").
Proof. cbv zeta. repeat split; try reflexivity. discriminate. Qed.

(** The same remark on a run, for a scope that is given the key
    [output_1]. *)
Lemma global_output_1_shadows_stage_output :
  let chain := [mk_step "A" "one"; mk_step "B" "{{output_1}}"] in
  let r := runChain answers_S [(str "output_1", str "G")] chain in
  status_at (final_steps r) 0 = Some completed
  /\ output_at (final_steps r) 0 = Some (Some (str "S"))
  /\ substituteAll [(str "output_1", str "G")] (final_steps r)
       (str "{{output_1}}") 1 = str "G"
  /\ substituteAll [(str "output_1", str "G")] (final_steps r)
       (str "{{output_1}}") 1 <> str "S"
  /\ option_map fst (nth_error (sent r) 1)
     = Some (str "Role: " ++ newline :: str "Instruction: G"
             ++ newline :: str "Context: " ++ newline :: str "Constraints: "
             ++ newline :: str "Evaluation: ").
Proof. cbv zeta. repeat split; try reflexivity. discriminate. Qed.

Lemma global_variable_wins_witness :
  substituteAll [(str "topic", str "bees"); (str "output_1", str "G")]
    [stage_after completed (str "S") (mk_step "A" "one"); mk_step "B" "two"]
    (str "Take " ++ placeholder (output_name 0) ++ str " as input") 1
  = str "Take " ++ str "G" ++ str " as input".
Proof.
  apply global_variable_wins_over_output.
  - repeat constructor; simpl; intuition discriminate.
  - repeat constructor.
  - simpl. right. left. reflexivity.
  - reflexivity.
  - reflexivity.
  - reflexivity.
Defined.

(** ** Variable discovery *)

Lemma match_from_skip (a t : text) :
  match_from (length a) (a ++ t) = match_from 0 t.
Proof. induction a as [|c a IH]; simpl; auto. Qed.

Lemma find_close_unfold (t : text) :
  find_close t
  = if starts_with [rbrace; rbrace] t then Some ([], skipn 2 t)
    else match t with
         | [] => None
         | c :: t' =>
             if is_line_terminator c then None
             else match find_close t' with
                  | Some (g, rest) => Some (c :: g, rest)
                  | None => None
                  end
         end.
Proof. destruct t; reflexivity. Qed.

Lemma find_close_spec (s g rest : text) :
  find_close s = Some (g, rest) -> s = g ++ rbrace :: rbrace :: rest.
Proof.
  revert g rest; induction s as [|c s IH]; intros g rest H;
    rewrite find_close_unfold in H.
  - discriminate.
  - destruct (starts_with [rbrace; rbrace] (c :: s)) eqn:E.
    + destruct (starts_with_inv _ _ E) as [r Hr]. simpl in Hr.
      injection Hr as -> ->. simpl in H. injection H as <- <-. reflexivity.
    + destruct (is_line_terminator c); [discriminate|].
      destruct (find_close s) as [[g' rest']|]; [|discriminate].
      injection H as <- <-. simpl. f_equal. now apply IH.
Qed.

Lemma starts_with_two_app (a b c d : code_unit) (s x : text) :
  starts_with [a; b] ((c :: d :: s) ++ x) = starts_with [a; b] (c :: d :: s).
Proof. reflexivity. Qed.

Lemma find_close_app_some (s x g rest : text) :
  find_close s = Some (g, rest) ->
  find_close (s ++ x) = Some (g, rest ++ x).
Proof.
  revert g rest; induction s as [|c s IH]; intros g rest H;
    rewrite find_close_unfold in H.
  - discriminate.
  - destruct (starts_with [rbrace; rbrace] (c :: s)) eqn:E.
    + destruct (starts_with_inv _ _ E) as [r Hr]. simpl in Hr.
      injection Hr as -> ->. simpl in H. injection H as <- <-.
      rewrite find_close_unfold. reflexivity.
    + destruct (is_line_terminator c) eqn:Ec; [discriminate|].
      destruct (find_close s) as [[g' rest']|] eqn:Es; [|discriminate].
      injection H as <- <-.
      destruct s as [|d s]; [discriminate|].
      rewrite find_close_unfold, starts_with_two_app, E.
      cbn [app]. rewrite Ec.
      change (d :: s ++ x) with ((d :: s) ++ x).
      now rewrite (IH g' rest').
Qed.

Lemma line_terminator_not_brace (c : code_unit) :
  is_line_terminator c = true -> (rbrace =? c)%N = false.
Proof.
  unfold is_line_terminator. intros H.
  destruct (N.eqb_spec rbrace c) as [<-|]; [discriminate|reflexivity].
Qed.

Lemma find_close_app_none (s x : text) :
  find_close s = None -> unterminated s = false ->
  find_close (s ++ x) = None.
Proof.
  induction s as [|c s IH]; intros H Hu.
  - unfold unterminated in Hu. simpl in Hu. discriminate.
  - unfold unterminated in Hu. rewrite H in Hu.
    rewrite find_close_unfold in H.
    destruct (starts_with [rbrace; rbrace] (c :: s)) eqn:E; [discriminate|].
    cbn [forallb] in Hu.
    destruct (is_line_terminator c) eqn:Ec.
    + rewrite find_close_unfold. cbn [app starts_with].
      rewrite (line_terminator_not_brace c Ec). cbn [andb]. now rewrite Ec.
    + cbn [negb andb] in Hu.
      destruct (find_close s) as [[g' rest']|] eqn:Es; [discriminate|].
      assert (Hus : unterminated s = false)
        by (unfold unterminated; now rewrite Es).
      destruct s as [|d s]; [discriminate|].
      rewrite find_close_unfold, starts_with_two_app, E.
      cbn [app]. rewrite Ec.
      change (d :: s ++ x) with ((d :: s) ++ x).
      now rewrite IH.
Qed.

Lemma match_from_hit (s g rest : text) :
  find_close s = Some (g, rest) ->
  match_from 0 (lbrace :: lbrace :: s) = placeholder g :: match_from 0 rest.
Proof.
  intros H. cbn [match_from]. cbn [starts_with skipn]. rewrite N.eqb_refl.
  cbn [andb]. rewrite H. f_equal.
  rewrite (find_close_spec _ _ _ H).
  replace (length g + 3) with (length (lbrace :: g ++ [rbrace; rbrace]))
    by (simpl; rewrite length_app; simpl; lia).
  rewrite <- (match_from_skip (lbrace :: g ++ [rbrace; rbrace]) rest).
  f_equal. simpl. now rewrite <- app_assoc.
Qed.

Lemma match_from_miss (c : code_unit) (t : text) :
  starts_with [lbrace; lbrace] (c :: t) = false
  \/ find_close (skipn 2 (c :: t)) = None ->
  match_from 0 (c :: t) = match_from 0 t.
Proof.
  intros H. cbn [match_from].
  destruct (starts_with [lbrace; lbrace] (c :: t)); [|reflexivity].
  destruct H as [H|H]; [discriminate|]. now rewrite H.
Qed.

Lemma closed_suffix (a b : text) : closed (a ++ b) = true -> closed b = true.
Proof.
  induction a as [|c a IH]; [auto|].
  simpl app. cbn [closed]. intros H.
  apply andb_true_iff in H as [_ H]. auto.
Qed.

(** A closed text followed by a space: the matches are those of the text,
    then those of what follows. *)
Lemma match_from_closed_app (B : text) :
  forall A, closed A = true ->
  match_from 0 (A ++ space :: B) = match_from 0 A ++ match_from 0 B.
Proof.
  intros A.
  induction A as [A IH] using (induction_ltof1 _ (@length code_unit)).
  unfold ltof in IH. intros HA.
  destruct A as [|c A].
  - simpl app. now rewrite match_from_miss by (left; reflexivity).
  - pose proof HA as HA0. cbn [closed] in HA.
    apply andb_true_iff in HA as [Hhead Htail].
    destruct (starts_with [lbrace; lbrace] (c :: A)) eqn:E.
    + destruct (starts_with_inv _ _ E) as [s Hs]. simpl in Hs.
      injection Hs as -> ->. cbn [skipn] in Hhead.
      apply negb_true_iff in Hhead.
      destruct (find_close s) as [[g rest]|] eqn:Ef.
      * pose proof (find_close_spec _ _ _ Ef) as Hspec.
        change ((lbrace :: lbrace :: s) ++ space :: B)
          with (lbrace :: lbrace :: (s ++ space :: B)).
        rewrite (match_from_hit _ g (rest ++ space :: B))
          by now apply find_close_app_some.
        rewrite (match_from_hit _ g rest) by assumption.
        simpl. f_equal. apply IH.
        -- rewrite Hspec. simpl. rewrite length_app. simpl. lia.
        -- apply (closed_suffix (lbrace :: lbrace :: g ++ [rbrace; rbrace])).
           rewrite Hspec in HA0. simpl. rewrite <- app_assoc. exact HA0.
      * change ((lbrace :: lbrace :: s) ++ space :: B)
          with (lbrace :: lbrace :: (s ++ space :: B)).
        rewrite match_from_miss
          by (right; cbn [skipn]; now apply find_close_app_none).
        rewrite (match_from_miss lbrace (lbrace :: s))
          by (right; exact Ef).
        apply (IH (lbrace :: s)); [simpl; lia|exact Htail].
    + change ((c :: A) ++ space :: B) with (c :: (A ++ space :: B)).
      rewrite match_from_miss.
      * rewrite (match_from_miss c A) by (left; exact E).
        apply IH; [simpl; lia|exact Htail].
      * left. destruct A as [|d A]; [|exact E].
        cbn [app starts_with]. destruct (lbrace =? c)%N; reflexivity.
Qed.

Lemma match_placeholders_join (values : list text) :
  Forall (fun v => closed v = true) values ->
  match_placeholders (join [space] values) = flat_map match_placeholders values.
Proof.
  induction 1 as [|v values Hv Hvs IH]; [reflexivity|].
  destruct values as [|w values].
  - simpl. now rewrite app_nil_r.
  - change (join [space] (v :: w :: values))
      with (v ++ space :: join [space] (w :: values)).
    unfold match_placeholders in *.
    rewrite match_from_closed_app by assumption.
    now rewrite IH.
Qed.

Lemma mem_In (x : text) (l : list text) : mem x l = true <-> In x l.
Proof.
  unfold mem. rewrite existsb_exists. split.
  - intros (y & Hy & E). apply text_eqb_eq in E. now subst.
  - intros H. exists x. split; [exact H|apply text_eqb_refl].
Qed.

Lemma Set_add_all_spec (xs acc : list text) :
  NoDup acc ->
  NoDup (fold_left Set_add xs acc)
  /\ forall x, In x (fold_left Set_add xs acc) <-> In x acc \/ In x xs.
Proof.
  revert acc; induction xs as [|y xs IH]; intros acc Hacc; simpl.
  - split; [exact Hacc|]. intros x. tauto.
  - unfold Set_add at 2 4. destruct (mem y acc) eqn:E.
    + destruct (IH acc Hacc) as [Hn Hin]. split; [exact Hn|].
      intros x. rewrite Hin. apply mem_In in E.
      split; [tauto|]. intros [H|[<-|H]]; auto.
    + assert (Hy : ~ In y acc)
        by (intros H; apply mem_In in H; congruence).
      assert (Hacc' : NoDup (acc ++ [y])).
      { apply NoDup_app; [exact Hacc|repeat constructor; simpl; tauto|].
        intros a Ha [<-|[]]. contradiction. }
      destruct (IH _ Hacc') as [Hn Hin]. split; [exact Hn|].
      intros x. rewrite Hin, in_app_iff. simpl. tauto.
Qed.

Lemma Array_from_Set_NoDup (xs : list text) : NoDup (Array_from_Set xs).
Proof. apply Set_add_all_spec. constructor. Qed.

Lemma Array_from_Set_In (xs : list text) (x : text) :
  In x (Array_from_Set xs) <-> In x xs.
Proof.
  unfold Array_from_Set.
  destruct (Set_add_all_spec xs [] (NoDup_nil _)) as [_ H].
  rewrite H. simpl. tauto.
Qed.

Lemma detect_closed_values (values : list text) (n : text) :
  Forall (fun v => closed v = true) values ->
  (In n (detect_in_values values)
   <-> exists v, In v values /\ In n (detect_in_values [v])).
Proof.
  intros Hc. unfold detect_in_values.
  rewrite Array_from_Set_In, match_placeholders_join by assumption.
  rewrite in_map_iff. split.
  - intros (m & Hm & Hin). apply in_flat_map in Hin as (v & Hv & Hmv).
    exists v. split; [exact Hv|].
    rewrite Array_from_Set_In. cbn [join]. apply in_map_iff. now exists m.
  - intros (v & Hv & Hin). rewrite Array_from_Set_In in Hin. cbn [join] in Hin.
    apply in_map_iff in Hin as (m & Hm & Hmv).
    exists m. split; [exact Hm|]. apply in_flat_map. now exists v.
Qed.

(** C8, as the code has it.  [detectedVars] depends on the prompt alone.  Its
    result has no duplicates.  When no field ends inside a [{{] that is left
    open, the names found are those found in the fields one by one, so that
    they do not depend on the order of the fields.  For [role = "Hi {{x}}"]
    and [instruction = "{{x}} and {{y}}"] the names are [x] and [y]. *)
Theorem detected_variables_form_a_set :
  (forall values, NoDup (detect_in_values values))
  /\ (forall values n,
        Forall (fun v => closed v = true) values ->
        (In n (detect_in_values values)
         <-> exists v, In v values /\ In n (detect_in_values [v])))
  /\ (forall values values' n,
        Forall (fun v => closed v = true) values ->
        Permutation values values' ->
        (In n (detect_in_values values) <-> In n (detect_in_values values')))
  /\ detectedVars {| role := str "Hi {{x}}";
                     instruction := str "{{x}} and {{y}}";
                     context := []; constraints := []; evaluation := [] |}
     = [str "x"; str "y"].
Proof.
  split; [|split; [|split]].
  - intros values. apply Array_from_Set_NoDup.
  - intros values n Hc. now apply detect_closed_values.
  - intros values values' n Hc Hp.
    assert (Hc' : Forall (fun v => closed v = true) values')
      by (eapply Permutation_Forall; eauto).
    rewrite !detect_closed_values by assumption.
    split; intros (v & Hv & Hn); exists v; split; auto.
    + eapply Permutation_in; eauto.
    + eapply Permutation_in; [apply Permutation_sym|]; eauto.
  - reflexivity.
Qed.

Lemma detected_variables_witness :
  In (str "y") (detect_in_values [str "Hi {{x}}"; str "{{x}} and {{y}}"])
  <-> In (str "y") (detect_in_values [str "{{x}} and {{y}}"; str "Hi {{x}}"]).
Proof.
  apply (proj1 (proj2 (proj2 detected_variables_form_a_set))).
  - repeat constructor.
  - apply perm_swap.
Defined.

(** C8 fails as stated: the fields are joined before the scan, so that a
    [{{] left open in a field is closed by a later field.  The name found
    then lies in no field, and it is lost when the two fields change
    places. *)
Lemma open_placeholder_depends_on_field_order :
  detectedVars {| role := str "{{a"; instruction := str "b}}";
                  context := []; constraints := []; evaluation := [] |}
  = [str "a b"]
  /\ detectedVars {| role := str "b}}"; instruction := str "{{a";
                     context := []; constraints := []; evaluation := [] |}
     = []
  /\ detect_in_values [str "{{a"] = []
  /\ detect_in_values [str "b}}"] = [].
Proof. repeat split; reflexivity. Qed.

(** ** Editing the chain *)

Lemma filter_other_ids_length (id0 : text) (steps : list PromptChainStep) :
  NoDup (map id steps) ->
  length steps <= S (length (filter (fun s => negb (text_eqb (id s) id0)) steps)).
Proof.
  induction steps as [|s steps IH]; intros Hnd; [simpl; lia|].
  inversion Hnd as [|? ? Hnot Hnd']; subst.
  cbn [filter]. destruct (text_eqb (id s) id0) eqn:E; cbn [negb].
  - apply text_eqb_eq in E.
    rewrite forallb_filter_id; [simpl; lia|].
    apply forallb_forall. intros x Hx. apply negb_true_iff.
    apply text_eqb_neq. intros Hid. apply Hnot. rewrite E, <- Hid.
    now apply in_map.
  - specialize (IH Hnd'). simpl. lia.
Qed.

Lemma kept_ids_distinct (keep : PromptChainStep -> bool)
  (steps : list PromptChainStep) :
  NoDup (map id steps) -> NoDup (map id (filter keep steps)).
Proof.
  intros Hnd. induction steps as [|s steps IH]; [constructor|].
  apply NoDup_cons_iff in Hnd as [Hnew Hnd]. cbn [filter].
  destruct (keep s); [|now apply IH].
  cbn [map]. apply NoDup_cons; [|now apply IH].
  rewrite in_map_iff. intros (x & Hid & Hx).
  apply filter_In in Hx as [Hx _].
  apply Hnew. rewrite <- Hid. now apply in_map.
Qed.

Lemma apply_operation_ok (steps : list PromptChainStep) (op : operation) :
  chain_ok steps ->
  match op with
  | AddStep fresh_id => ~ In fresh_id (map id steps)
  | RemoveStep _ => True
  end ->
  chain_ok (apply_operation steps op).
Proof.
  intros [Hlen Hnd] Hop. destruct op as [fresh_id|id0]; simpl.
  - unfold addStep. split.
    + rewrite length_app. simpl. lia.
    + rewrite map_app. simpl. apply NoDup_app; auto.
      * repeat constructor. simpl. tauto.
      * intros a Ha [<-|[]]. contradiction.
  - unfold removeStep. destruct (Nat.ltb_spec 1 (length steps)) as [H|H].
    + split; [|now apply kept_ids_distinct].
      pose proof (filter_other_ids_length id0 steps Hnd). lia.
    + now split.
Qed.

Lemma operations_keep_chain_ok (ops : list operation) :
  forall steps, chain_ok steps -> fresh_ids steps ops ->
                chain_ok (fold_left apply_operation ops steps).
Proof.
  induction ops as [|op ops IH]; intros steps Hok Hfresh; [exact Hok|].
  destruct Hfresh as [Hop Hrest]. simpl.
  apply IH; [|exact Hrest]. now apply apply_operation_ok.
Qed.

(** C10. The chain is never empty.  [removeStep] leaves a list of exactly one
    step unchanged; on any other list it keeps, in order, the steps whose
    identifier differs from the given one, and nothing else.  [addStep]
    appends one idle step.  Identifiers being unique, as those drawn by
    [crypto.randomUUID()] are, a removal takes away at most one step, and
    every sequence of additions and removals applied to a chain with at
    least one step leaves at least one step. *)
Theorem chain_is_never_empty :
  (forall id0 steps, length steps = 1 -> removeStep id0 steps = steps)
  /\ (forall id0 steps, length steps <> 1 ->
        removeStep id0 steps
        = filter (fun s => negb (text_eqb (id s) id0)) steps)
  /\ (forall id0 steps, NoDup (map id steps) ->
        length steps <= S (length (removeStep id0 steps)))
  /\ (forall fresh_id steps,
        exists s, addStep fresh_id steps = steps ++ [s]
                  /\ id s = fresh_id /\ status s = idle /\ output s = None)
  /\ (forall steps ops,
        1 <= length steps -> NoDup (map id steps) -> fresh_ids steps ops ->
        1 <= length (fold_left apply_operation ops steps)).
Proof.
  split; [|split; [|split; [|split]]].
  - intros id0 steps H. unfold removeStep. now rewrite H.
  - intros id0 steps H. unfold removeStep.
    destruct (Nat.ltb_spec 1 (length steps)); [reflexivity|].
    destruct steps as [|s [|s' steps]]; simpl in *; try lia. reflexivity.
  - intros id0 steps Hnd. unfold removeStep.
    destruct (Nat.ltb_spec 1 (length steps)); [|lia].
    now apply filter_other_ids_length.
  - intros fresh_id steps. unfold addStep. eexists. split; [reflexivity|].
    repeat split.
  - intros steps ops Hlen Hnd Hfresh.
    now destruct (operations_keep_chain_ok ops steps (conj Hlen Hnd) Hfresh).
Qed.

Lemma chain_is_never_empty_witness :
  1 <= length (fold_left apply_operation
                 [AddStep (str "id-2"); RemoveStep (str "id-1");
                  RemoveStep (str "id-2"); AddStep (str "id-3");
                  RemoveStep (str "id-3")]
                 [mk_step "id-1" "Synthesize the core themes of {{topic}}."]).
Proof.
  apply (proj2 (proj2 (proj2 (proj2 chain_is_never_empty)))).
  - simpl. lia.
  - repeat constructor. simpl. tauto.
  - simpl. repeat split; intuition discriminate.
Defined.

(** * Further properties *)

(** ** Editing the steps of a chain *)

Lemma get_set_field (field : Field) (value : text) (p : RiccePrompt) :
  get_field field (set_field field value p) = value.
Proof. destruct field; reflexivity. Qed.

Lemma get_set_other_field (f f' : Field) (value : text) (p : RiccePrompt) :
  f' <> f -> get_field f' (set_field f value p) = get_field f' p.
Proof. destruct f, f'; intros H; try reflexivity; congruence. Qed.

Lemma set_field_twice (f : Field) (v1 v2 : text) (p : RiccePrompt) :
  set_field f v2 (set_field f v1 p) = set_field f v2 p.
Proof. destruct f; reflexivity. Qed.

Lemma set_field_swap (f1 f2 : Field) (v1 v2 : text) (p : RiccePrompt) :
  f1 <> f2 ->
  set_field f1 v1 (set_field f2 v2 p) = set_field f2 v2 (set_field f1 v1 p).
Proof. destruct f1, f2; intros H; try reflexivity; congruence. Qed.

(** X1. [updateStepField] changes the chosen field of the steps that carry
    the given identifier, and nothing else: identifiers, names, outputs and
    statuses stay, the other fields stay, the steps with another identifier
    stay, and the chosen field of a step with the identifier reads back as
    the new value. *)
Theorem updateStepField_changes_one_field
  (id0 : text) (field : Field) (value : text) (steps : list PromptChainStep) :
  let steps' := updateStepField id0 field value steps in
  map id steps' = map id steps
  /\ map name steps' = map name steps
  /\ map output steps' = map output steps
  /\ map status steps' = map status steps
  /\ (forall f', f' <> field ->
        map (fun s => get_field f' (promptData s)) steps'
        = map (fun s => get_field f' (promptData s)) steps)
  /\ (forall j s, nth_error steps j = Some s -> id s <> id0 ->
        nth_error steps' j = Some s)
  /\ (forall j s, nth_error steps j = Some s -> id s = id0 ->
        option_map (fun s' => get_field field (promptData s'))
          (nth_error steps' j) = Some value).
Proof.
  cbv zeta. unfold updateStepField.
  repeat split.
  1-4: rewrite map_map; apply map_ext; intros s;
       destruct (text_eqb (id s) id0); reflexivity.
  - intros f' Hf. rewrite map_map. apply map_ext. intros s.
    destruct (text_eqb (id s) id0); [|reflexivity].
    simpl. now apply get_set_other_field.
  - intros j s Hj Hid. rewrite nth_error_map, Hj. simpl.
    now rewrite text_eqb_neq.
  - intros j s Hj Hid. rewrite nth_error_map, Hj. simpl.
    rewrite (proj2 (text_eqb_eq (id s) id0) Hid). simpl.
    now rewrite get_set_field.
Qed.

Lemma updateStepField_witness :
  option_map (fun s' => get_field f_context (promptData s'))
    (nth_error (updateStepField (str "B") f_context (str "new")
                  [mk_step "A" "one"; mk_step "B" "two"]) 1)
  = Some (str "new").
Proof.
  apply (proj2 (proj2 (proj2 (proj2 (proj2 (proj2
           (updateStepField_changes_one_field (str "B") f_context (str "new")
              [mk_step "A" "one"; mk_step "B" "two"])))))) 1 (mk_step "B" "two")).
  - reflexivity.
  - reflexivity.
Defined.

(** X2. The last value written to a field wins, two edits of different
    fields or of steps with different identifiers can be made in either
    order, and an edit for an identifier that no step carries changes
    nothing. *)
Theorem updateStepField_composes :
  (forall id0 f v1 v2 steps,
      updateStepField id0 f v2 (updateStepField id0 f v1 steps)
      = updateStepField id0 f v2 steps)
  /\ (forall id1 id2 f1 f2 v1 v2 steps,
        id1 <> id2 \/ f1 <> f2 ->
        updateStepField id1 f1 v1 (updateStepField id2 f2 v2 steps)
        = updateStepField id2 f2 v2 (updateStepField id1 f1 v1 steps))
  /\ (forall id0 f v steps,
        ~ In id0 (map id steps) -> updateStepField id0 f v steps = steps).
Proof.
  unfold updateStepField. split; [|split].
  - intros id0 f v1 v2 steps. rewrite map_map. apply map_ext. intros s.
    destruct (text_eqb (id s) id0) eqn:E; simpl; rewrite E; [|reflexivity].
    now rewrite set_field_twice.
  - intros id1 id2 f1 f2 v1 v2 steps H. rewrite !map_map. apply map_ext.
    intros s.
    destruct (text_eqb (id s) id1) eqn:E1; destruct (text_eqb (id s) id2) eqn:E2;
      simpl; rewrite ?E1, ?E2; try reflexivity.
    apply text_eqb_eq in E1, E2.
    destruct H as [H|H]; [congruence|].
    now rewrite set_field_swap.
  - intros id0 f v steps Hnot.
    rewrite <- (map_id steps) at 2. apply map_ext_in. intros s Hs.
    rewrite text_eqb_neq; [reflexivity|].
    intros Hid. apply Hnot. rewrite <- Hid. now apply in_map.
Qed.

Lemma updateStepField_composes_witness :
  updateStepField (str "A") f_role (str "r")
    (updateStepField (str "A") f_context (str "c") [mk_step "A" "one"])
  = updateStepField (str "A") f_context (str "c")
      (updateStepField (str "A") f_role (str "r") [mk_step "A" "one"]).
Proof.
  apply (proj1 (proj2 updateStepField_composes)).
  right. discriminate.
Defined.

(** ** What a run depends on, and what it leaves *)

Lemma prior_outputs_from (F : nat * PromptChainStep -> entries) :
  (forall idx s s', output s = output s' -> F (idx, s) = F (idx, s')) ->
  forall (A B : list PromptChainStep) (a : nat),
    map output A = map output B ->
    flat_map F (combine (seq a (length A)) A)
    = flat_map F (combine (seq a (length B)) B).
Proof.
  intros HF. induction A as [|x A IH]; intros [|y B] a H;
    try discriminate; [reflexivity|].
  simpl in H. injection H as Hxy H. simpl.
  rewrite (HF a x y Hxy). f_equal. now apply IH.
Qed.

Lemma prior_outputs_same_outputs (A B : list PromptChainStep) (i : nat) :
  map output A = map output B -> prior_outputs A i = prior_outputs B i.
Proof.
  intros H. unfold prior_outputs, indexed. apply prior_outputs_from; auto.
  intros idx s s' Hs. cbn [fst snd]. now rewrite Hs.
Qed.

Lemma outputs_before (S1 S2 : list PromptChainStep) (i : nat) :
  (forall j, j < i -> output_at S1 j = output_at S2 j) ->
  map output (firstn i S1) = map output (firstn i S2).
Proof.
  intros H. rewrite <- !firstn_map. apply firstn_agree.
  intros j Hj. rewrite !nth_error_map. now apply H.
Qed.

Lemma data_at_same_prompts (S1 S2 : list PromptChainStep) (i : nat) :
  map promptData S1 = map promptData S2 -> data_at S1 i = data_at S2 i.
Proof.
  intros H. unfold data_at.
  assert (E : nth_error (map promptData S1) i = nth_error (map promptData S2) i)
    by now rewrite H.
  rewrite !nth_error_map in E.
  destruct (nth_error S1 i), (nth_error S2 i); simpl in E; congruence.
Qed.

Lemma fullPrompt_same_inputs (g : entries) (S1 S2 : list PromptChainStep)
  (i : nat) :
  map promptData S1 = map promptData S2 ->
  (forall j, j < i -> output_at S1 j = output_at S2 j) ->
  fullPrompt g S1 i = fullPrompt g S2 i.
Proof.
  intros Hp Ho. unfold fullPrompt.
  rewrite (data_at_same_prompts S1 S2 i Hp).
  assert (E : forall t, substituteAll g S1 t i = substituteAll g S2 t i).
  { intros t. rewrite !substituteAll_scope. unfold effective_scope.
    rewrite (prior_outputs_firstn S1), (prior_outputs_firstn S2).
    now rewrite (prior_outputs_same_outputs _ _ i (outputs_before S1 S2 i Ho)). }
  now rewrite !E.
Qed.

Lemma map_update_kept {A B : Type} (key : A -> B) (i : nat) (f : A -> A)
  (l : list A) :
  (forall x, key (f x) = key x) -> map key (update i f l) = map key l.
Proof.
  intros Hf. revert i; induction l as [|x l IH]; intros [|i]; simpl;
    try reflexivity; now rewrite ?Hf, ?IH.
Qed.

Lemma output_at_update_same (i : nat) (st : Status) (o : text)
  (S0 : list PromptChainStep) :
  i < length S0 ->
  output_at (update i (stage_after st o) S0) i = Some (Some o)
  /\ status_at (update i (stage_after st o) S0) i = Some st.
Proof.
  intros Hi. unfold output_at, status_at. rewrite nth_error_update_same.
  destruct (nth_error S0 i) eqn:E; [now split|].
  apply nth_error_None in E. lia.
Qed.

Lemma output_at_update_other (i j : nat) (f : PromptChainStep -> PromptChainStep)
  (S0 : list PromptChainStep) :
  i <> j -> output_at (update i f S0) j = output_at S0 j.
Proof. intros H. unfold output_at. now rewrite nth_error_update_other. Qed.

(** Two runs from stores with the same prompts and the same earlier
    outputs make the same calls and leave the same outputs and statuses in
    the stages they attempt. *)
Lemma runLoop_agree (tp : adapter) (g : entries) :
  forall todo i S1 S2 log,
    length S1 <= i + todo ->
    map promptData S1 = map promptData S2 ->
    (forall j, j < i -> output_at S1 j = output_at S2 j) ->
    exists new,
      sent (runLoop tp g todo i S1 log) = log ++ new
      /\ sent (runLoop tp g todo i S2 log) = log ++ new
      /\ forall j, j < i + length new ->
           output_at (final_steps (runLoop tp g todo i S1 log)) j
           = output_at (final_steps (runLoop tp g todo i S2 log)) j
           /\ (i <= j ->
               status_at (final_steps (runLoop tp g todo i S1 log)) j
               = status_at (final_steps (runLoop tp g todo i S2 log)) j).
Proof.
  induction todo as [|todo IH]; intros i S1 S2 log Hfuel Hp Ho.
  - exists []. simpl. rewrite app_nil_r. repeat split; auto.
    + apply Ho. lia.
    + lia.
  - assert (Hlen : length S1 = length S2)
      by (rewrite <- (length_map promptData S1), Hp; apply length_map).
    destruct (le_lt_dec (length S1) i) as [Hge|Hlt].
    + exists []. rewrite !runLoop_end by lia. simpl. rewrite app_nil_r.
      repeat split; auto.
      * apply Ho. lia.
      * lia.
    + rewrite !runLoop_turn by lia. cbv zeta.
      rewrite <- (fullPrompt_same_inputs g S1 S2 i Hp Ho).
      set (req := fullPrompt g S1 i).
      set (st := status_for (outcome (tp i req))).
      set (o := concat (chunks (tp i req))).
      assert (Hp' : map promptData (update i (stage_after st o) S1)
                    = map promptData (update i (stage_after st o) S2))
        by (rewrite !map_update_kept by reflexivity; exact Hp).
      assert (Ho' : forall j, j < i + 1 ->
                 output_at (update i (stage_after st o) S1) j
                 = output_at (update i (stage_after st o) S2) j).
      { intros j Hj. destruct (Nat.eq_dec i j) as [<-|Hne].
        - destruct (output_at_update_same i st o S1 Hlt) as [-> _].
          destruct (output_at_update_same i st o S2) as [-> _]; [lia|reflexivity].
        - rewrite !output_at_update_other by assumption. apply Ho. lia. }
      destruct (outcome (tp i req)) eqn:Eout.
      * assert (Hfuel' : length (update i (stage_after st o) S1) <= i + 1 + todo)
          by (rewrite length_update; lia).
        destruct (IH (i + 1) _ _ (log ++ [(req, fulfilled)]) Hfuel' Hp' Ho')
          as (new & H1 & H2 & H3).
        exists ((req, fulfilled) :: new).
        rewrite H1, H2, <- app_assoc. split; [reflexivity|].
        split; [reflexivity|].
        intros j Hj. simpl in Hj. split; [apply H3; lia|].
        intros Hij. destruct (Nat.eq_dec i j) as [<-|Hne]; [|apply H3; lia].
        destruct (runLoop_facts tp g todo (i + 1)
                    (update i (stage_after st o) S1)
                    (log ++ [(req, fulfilled)])) as (n1 & F1);
          [rewrite length_update; lia|].
        destruct (runLoop_facts tp g todo (i + 1)
                    (update i (stage_after st o) S2)
                    (log ++ [(req, fulfilled)])) as (n2 & F2);
          [rewrite length_update; lia|].
        destruct F1 as (_ & _ & _ & _ & L1 & _).
        destruct F2 as (_ & _ & _ & _ & L2 & _).
        unfold status_at. rewrite L1, L2 by lia.
        fold (status_at (update i (stage_after st o) S1) i).
        fold (status_at (update i (stage_after st o) S2) i).
        destruct (output_at_update_same i st o S1 Hlt) as [_ ->].
        destruct (output_at_update_same i st o S2) as [_ ->]; [lia|reflexivity].
      * exists [(req, rejected)]. cbn [sent final_steps].
        split; [reflexivity|]. split; [reflexivity|].
        intros j Hj. simpl in Hj. split; [apply Ho'; lia|].
        intros Hij. assert (j = i) by lia. subst j.
        destruct (output_at_update_same i st o S1 Hlt) as [_ ->].
        destruct (output_at_update_same i st o S2) as [_ ->]; [lia|reflexivity].
Qed.

Lemma runLoop_keeps_chain (tp : adapter) (g : entries) :
  forall todo i S0 log,
    same_chain (final_steps (runLoop tp g todo i S0 log)) S0.
Proof.
  unfold same_chain.
  induction todo as [|todo IH]; intros i S0 log; [reflexivity|].
  destruct (le_lt_dec (length S0) i) as [Hge|Hlt].
  - now rewrite runLoop_end.
  - rewrite runLoop_turn by assumption. cbv zeta.
    destruct (outcome (tp i (fullPrompt g S0 i))).
    + rewrite IH. now apply map_update_kept.
    + cbn [final_steps]. now apply map_update_kept.
Qed.

Lemma same_chain_prompts (S1 S2 : list PromptChainStep) :
  same_chain S1 S2 -> map promptData S1 = map promptData S2.
Proof.
  unfold same_chain. intros H.
  apply (f_equal (map snd)) in H. now rewrite !map_map in H.
Qed.

Lemma step_determined (s1 s2 : PromptChainStep) :
  (id s1, name s1, promptData s1) = (id s2, name s2, promptData s2) ->
  output s1 = output s2 -> status s1 = status s2 -> s1 = s2.
Proof. destruct s1, s2; simpl; intros H Ho Hs. congruence. Qed.

(** X3. What a run sends, and what it leaves in the stages it attempts,
    depends on the prompts of the steps alone: two chains with the same
    prompts, whatever their names, identifiers, statuses and earlier
    outputs, receive the same requests with the same results, and end with
    the same outputs and statuses in the stages attempted. *)
Theorem run_depends_on_prompts_only
  (tp : adapter) (g : entries) (S1 S2 : list PromptChainStep)
  (Hp : map promptData S1 = map promptData S2) :
  sent (runChain tp g S1) = sent (runChain tp g S2)
  /\ forall j, j < length (sent (runChain tp g S1)) ->
       output_at (final_steps (runChain tp g S1)) j
       = output_at (final_steps (runChain tp g S2)) j
       /\ status_at (final_steps (runChain tp g S1)) j
          = status_at (final_steps (runChain tp g S2)) j.
Proof.
  unfold runChain.
  assert (Hlen : length S1 = length S2)
    by (rewrite <- (length_map promptData S1), Hp; apply length_map).
  rewrite <- Hlen.
  destruct (runLoop_agree tp g (length S1) 0 S1 S2 [] (le_n _) Hp)
    as (new & H1 & H2 & H3); [intros j Hj; lia|].
  simpl in H1, H2. rewrite H1, H2. split; [reflexivity|].
  intros j Hj. destruct (H3 j Hj) as [Ho Hs]. split; [exact Ho|].
  apply Hs. lia.
Qed.

Lemma run_depends_on_prompts_witness :
  let fresh := [mk_step "A" "one"; mk_step "B" "two {{output_1}}"] in
  let used := [stage_after error (str "old") (mk_step "A2" "one");
               stage_after completed (str "older")
                 (mk_step "B2" "two {{output_1}}")] in
  sent (runChain bees_adapter [] fresh) = sent (runChain bees_adapter [] used).
Proof.
  cbv zeta.
  apply (run_depends_on_prompts_only bees_adapter []
           [mk_step "A" "one"; mk_step "B" "two {{output_1}}"]
           [stage_after error (str "old") (mk_step "A2" "one");
            stage_after completed (str "older")
              (mk_step "B2" "two {{output_1}}")]).
  reflexivity.
Defined.

(** X4. A run changes neither the number of the steps nor their
    identifiers, names and prompts. *)
Theorem run_keeps_the_chain
  (tp : adapter) (g : entries) (steps : list PromptChainStep) :
  length (final_steps (runChain tp g steps)) = length steps
  /\ map id (final_steps (runChain tp g steps)) = map id steps
  /\ map name (final_steps (runChain tp g steps)) = map name steps
  /\ map promptData (final_steps (runChain tp g steps)) = map promptData steps.
Proof.
  pose proof (runLoop_keeps_chain tp g (length steps) 0 steps []) as H.
  fold (runChain tp g steps) in H. unfold same_chain in H.
  repeat split.
  - rewrite <- (length_map (fun s => (id s, name s, promptData s))), H.
    apply length_map.
  - apply (f_equal (map (fun k : text * text * RiccePrompt => fst (fst k)))) in H.
    now rewrite !map_map in H.
  - apply (f_equal (map (fun k : text * text * RiccePrompt => snd (fst k)))) in H.
    now rewrite !map_map in H.
  - now apply same_chain_prompts.
Qed.

(** X5. Running the chain again on the store a run has left, with a service
    that answers as before, gives the same result: the same requests, the
    same outputs and the same statuses. *)
Theorem run_again_gives_the_same
  (tp : adapter) (g : entries) (steps : list PromptChainStep) :
  runChain tp g (final_steps (runChain tp g steps)) = runChain tp g steps.
Proof.
  set (r1 := runChain tp g steps).
  set (r2 := runChain tp g (final_steps r1)).
  pose proof (runLoop_keeps_chain tp g (length steps) 0 steps []) as K1.
  fold (runChain tp g steps) in K1. fold r1 in K1.
  pose proof (runLoop_keeps_chain tp g (length (final_steps r1)) 0
                (final_steps r1) []) as K2.
  fold (runChain tp g (final_steps r1)) in K2. fold r2 in K2.
  destruct (run_depends_on_prompts_only tp g (final_steps r1) steps
              (same_chain_prompts _ _ K1)) as [Hsent Hsame].
  fold r1 r2 in Hsent, Hsame.
  destruct (runChain_facts tp g (final_steps r1))
    as (_ & Hret2 & _ & _ & _ & Hrest2 & _). fold r2 in Hret2, Hrest2.
  destruct (runChain_facts tp g steps) as (_ & Hret1 & _). fold r1 in Hret1.
  assert (Hfinal : final_steps r2 = final_steps r1).
  { apply nth_error_ext. intros j.
    destruct (le_lt_dec (length (sent r2)) j) as [Hge|Hlt].
    - apply Hrest2. simpl. exact Hge.
    - destruct (Hsame j Hlt) as [Ho Hs].
      assert (Hk : nth_error (map (fun s => (id s, name s, promptData s))
                                (final_steps r2)) j
                   = nth_error (map (fun s => (id s, name s, promptData s))
                                  (final_steps r1)) j)
        by (unfold same_chain in K2; now rewrite K2).
      rewrite !nth_error_map in Hk. unfold output_at, status_at in Ho, Hs.
      destruct (nth_error (final_steps r2) j) as [s2|],
               (nth_error (final_steps r1) j) as [s1|];
        simpl in *; try discriminate; [|reflexivity].
      f_equal. apply step_determined; congruence. }
  destruct r2 as [f2 s2 t2], r1 as [f1 s1 t1]. simpl in *. congruence.
Qed.

(** X6. The output of a stage the run has attempted is the concatenation,
    in order, of the chunks its call has delivered, also when the call is
    rejected after some chunks; nothing of an earlier output is left.  Its
    status tells how its call has ended.  The stages the run has not reached
    are untouched. *)
Theorem outputs_are_the_streamed_chunks
  (tp : adapter) (g : entries) (steps : list PromptChainStep) :
  let r := runChain tp g steps in
  (forall j req out, nth_error (sent r) j = Some (req, out) ->
      out = outcome (tp j req)
      /\ output_at (final_steps r) j = Some (Some (concat (chunks (tp j req))))
      /\ status_at (final_steps r) j = Some (status_for out))
  /\ (forall j, length (sent r) <= j ->
        nth_error (final_steps r) j = nth_error steps j).
Proof.
  cbv zeta.
  destruct (runChain_facts tp g steps)
    as (_ & _ & _ & _ & _ & Hrest & Hcalls & _).
  split.
  - intros j req out Hj.
    destruct (Hcalls j req out Hj) as (_ & H1 & H2 & H3 & _). auto.
  - intros j Hj. apply Hrest. simpl. exact Hj.
Qed.

Lemma outputs_are_the_streamed_chunks_witness :
  let steps := [stage_after completed (str "old") (mk_step "A" "one")] in
  output_at (final_steps (runChain fails_after_two_chunks [] steps)) 0
  = Some (Some (str "Bees are"))
  /\ status_at (final_steps (runChain fails_after_two_chunks [] steps)) 0
     = Some error.
Proof.
  cbv zeta.
  refine (proj2 (proj1 (outputs_are_the_streamed_chunks fails_after_two_chunks []
            [stage_after completed (str "old") (mk_step "A" "one")])
            0 (fullPrompt [] [mk_step "A" "one"] 0) rejected _)).
  reflexivity.
Defined.

(** X7. A run stops at the first rejected call and makes one call for each
    stage otherwise: a rejected call is the last call of the run, the number
    of calls never exceeds the number of steps, and when no call is rejected
    every stage has had its call. *)
Theorem run_stops_at_first_rejection
  (tp : adapter) (g : entries) (steps : list PromptChainStep) :
  let r := runChain tp g steps in
  length (sent r) <= length steps
  /\ (forall j req, nth_error (sent r) j = Some (req, rejected) ->
        length (sent r) = S j)
  /\ (Forall (fun call => snd call = fulfilled) (sent r) ->
      length (sent r) = length steps).
Proof.
  cbv zeta.
  destruct (runChain_facts tp g steps)
    as (_ & _ & Hlen & _ & _ & _ & Hcalls & Hall).
  assert (Hle : length (sent (runChain tp g steps)) <= length steps).
  { destruct (sent (runChain tp g steps)) as [|c l] eqn:E using rev_ind;
      [simpl; lia|].
    clear IHl. destruct c as [req out].
    assert (Hn : nth_error (l ++ [(req, out)]) (length l) = Some (req, out))
      by (rewrite nth_error_app2, Nat.sub_diag by lia; reflexivity).
    destruct (Hcalls _ _ _ Hn) as (_ & _ & Hs & _).
    apply status_at_In in Hs as (s & Hs & _).
    assert (0 + length l < length (final_steps (runChain tp g steps)))
      by (apply nth_error_Some; congruence).
    rewrite length_app. simpl. lia. }
  split; [exact Hle|]. split.
  - intros j req Hj. destruct (Hcalls j req rejected Hj) as (_ & _ & _ & _ & H).
    symmetry. now apply H.
  - intros Hok. specialize (Hall Hok). simpl in Hall. lia.
Qed.

Lemma run_stops_witness :
  length (sent (runChain second_call_fails []
                  [mk_step "A" "one"; mk_step "B" "two"; mk_step "C" "three"]))
  = 2.
Proof.
  apply (proj1 (proj2 (run_stops_at_first_rejection second_call_fails []
           [mk_step "A" "one"; mk_step "B" "two"; mk_step "C" "three"]))
           1 (fullPrompt [] [stage_after completed (str "text") (mk_step "A" "one");
                             mk_step "B" "two"] 1)).
  reflexivity.
Defined.

(** X8. A run leaves no stage running: when no step is in the status
    running before the run, none is after it. *)
Theorem run_leaves_no_stage_running
  (tp : adapter) (g : entries) (steps : list PromptChainStep) :
  Forall (fun s => status s <> running) steps ->
  Forall (fun s => status s <> running) (final_steps (runChain tp g steps)).
Proof.
  intros Hbefore.
  destruct (runChain_facts tp g steps)
    as (_ & _ & _ & _ & _ & Hrest & Hcalls & _).
  apply Forall_forall. intros s Hin.
  apply In_nth_error in Hin as [j Hj].
  destruct (le_lt_dec (length (sent (runChain tp g steps))) j) as [Hge|Hlt].
  - rewrite Hrest in Hj by (simpl; exact Hge).
    rewrite Forall_forall in Hbefore. apply Hbefore.
    eapply nth_error_In; eauto.
  - destruct (nth_error (sent (runChain tp g steps)) j) as [[req out]|] eqn:E;
      [|apply nth_error_None in E; lia].
    destruct (Hcalls j req out E) as (_ & _ & Hs & _).
    unfold status_at in Hs. simpl in Hs. rewrite Hj in Hs.
    injection Hs as ->. destruct out; discriminate.
Qed.

Lemma run_leaves_no_stage_running_witness :
  Forall (fun s => status s <> running)
    (final_steps (runChain second_call_fails []
                    [mk_step "A" "one"; mk_step "B" "two"; mk_step "C" "three"])).
Proof.
  apply run_leaves_no_stage_running.
  repeat constructor; discriminate.
Defined.

(** ** The output of the stage before *)

Lemma outputs_from_empty (i a : nat) (l : list PromptChainStep) :
  i <= a ->
  flat_map
    (fun entry : nat * PromptChainStep =>
       if (fst entry <? i) && truthy (output (snd entry))
       then [(output_name (fst entry), or_empty (output (snd entry)))]
       else [])
    (combine (seq a (length l)) l) = [].
Proof.
  revert a; induction l as [|x l IH]; intros a Ha; [reflexivity|].
  simpl. replace (a <? i) with false by (symmetry; apply Nat.ltb_ge; lia).
  simpl. apply IH. lia.
Qed.

Lemma outputs_from_next (l : list PromptChainStep) :
  forall (a d : nat) (s : PromptChainStep),
    nth_error l d = Some s ->
    flat_map
      (fun entry : nat * PromptChainStep =>
         if (fst entry <? S (a + d)) && truthy (output (snd entry))
         then [(output_name (fst entry), or_empty (output (snd entry)))]
         else [])
      (combine (seq a (length l)) l)
    = flat_map
        (fun entry : nat * PromptChainStep =>
           if (fst entry <? a + d) && truthy (output (snd entry))
           then [(output_name (fst entry), or_empty (output (snd entry)))]
           else [])
        (combine (seq a (length l)) l)
      ++ (if truthy (output s)
          then [(output_name (a + d), or_empty (output s))] else []).
Proof.
  induction l as [|x l IH]; intros a d s Hs; [destruct d; discriminate|].
  destruct d as [|d]; simpl in Hs.
  - injection Hs as ->. rewrite Nat.add_0_r. simpl.
    rewrite !outputs_from_empty by lia.
    replace (a <? S a) with true by (symmetry; apply Nat.ltb_lt; lia).
    rewrite Nat.ltb_irrefl. simpl. now rewrite app_nil_r.
  - simpl.
    replace (a <? S (a + S d)) with true by (symmetry; apply Nat.ltb_lt; lia).
    replace (a <? a + S d) with true by (symmetry; apply Nat.ltb_lt; lia).
    replace (a + S d) with (S a + d) by lia.
    rewrite (IH (S a) d s Hs). now rewrite app_assoc.
Qed.

Lemma prior_outputs_next (store : list PromptChainStep) (k : nat)
  (s : PromptChainStep) :
  nth_error store k = Some s ->
  prior_outputs store (S k)
  = prior_outputs store k
    ++ (if truthy (output s) then [(output_name k, or_empty (output s))] else []).
Proof.
  intros H. unfold prior_outputs, indexed.
  exact (outputs_from_next store 0 k s H).
Qed.

Lemma in_keys (n : text) (scope : entries) :
  In n (keys scope) -> exists v, In (n, v) scope.
Proof.
  unfold keys. rewrite in_map_iff. intros ([k v] & Hk & Hin).
  simpl in Hk. subst k. now exists v.
Qed.

(** X9. Every stage receives the output of the stage just before it: where
    that output is not empty and no global variable bears its name, the
    placeholder [{{output_(k+1)}}] in a text of stage [k+1] is replaced by
    the output of stage [k], unchanged, and the texts on both sides are
    resolved by themselves. *)
Theorem stage_receives_previous_output
  (g : entries) (store : list PromptChainStep) (k : nat) (o pre post : text)
  (Ho : output_at store k = Some (Some o))
  (Hne : o <> [])
  (Hkeys : all_brace_free (keys g))
  (Hfree : ~ In (output_name k) (keys g)) :
  substituteAll g store (pre ++ placeholder (output_name k) ++ post) (S k)
  = substituteAll g store pre (S k) ++ o ++ substituteAll g store post (S k).
Proof.
  unfold output_at in Ho.
  destruct (nth_error store k) as [s|] eqn:Es; [|discriminate].
  simpl in Ho. injection Ho as Ho.
  rewrite !substituteAll_scope. unfold effective_scope.
  rewrite (prior_outputs_next store k s Es), Ho.
  destruct o as [|c o]; [congruence|]. cbn [truthy or_empty].
  rewrite (app_assoc g (prior_outputs store k)).
  rewrite !(substituteVars_app (g ++ prior_outputs store k)).
  rewrite substituteVars_around.
  - cbn [substituteVars fold_left]. rewrite !replace_pass_eq.
    rewrite replace_all_around by apply output_name_brace_free.
    now rewrite text_eqb_refl.
  - now apply keys_effective_scope_brace_free.
  - apply output_name_brace_free.
  - rewrite keys_app. intros Hin. apply in_app_or in Hin as [Hin|Hin];
      [contradiction|].
    apply in_keys in Hin as [v Hv].
    apply in_prior_outputs in Hv as (Hlt & _). lia.
Qed.

Lemma stage_receives_previous_output_witness :
  let store := [stage_after completed (str "one") (mk_step "A" "a");
                stage_after completed (str "two") (mk_step "B" "b");
                mk_step "C" "c"] in
  substituteAll [(str "topic", str "bees")] store
    (str "{{output_1}} and " ++ placeholder (output_name 1) ++ str " on {{topic}}") 2
  = substituteAll [(str "topic", str "bees")] store (str "{{output_1}} and ") 2
    ++ str "two"
    ++ substituteAll [(str "topic", str "bees")] store (str " on {{topic}}") 2.
Proof.
  cbv zeta. apply stage_receives_previous_output.
  - reflexivity.
  - discriminate.
  - repeat constructor.
  - simpl. intros [H|[]]. discriminate.
Defined.

Lemma substituteAll_plain (g : entries) (store : list PromptChainStep)
  (t : text) (i : nat) :
  brace_free t = true -> substituteAll g store t i = t.
Proof. intros H. rewrite substituteAll_scope. now apply substituteVars_plain. Qed.

Lemma show_nat_brace_free (n : nat) : brace_free (show_nat n) = true.
Proof. apply uint_brace_free. Qed.

(** X10. The stage that [addStep] appends refers to the stage before it:
    during a run its instruction reads "Based on Stage N output, expand on
    the third theme: " followed by the output of stage N and a full stop,
    where N is the number of the steps before the addition, that output is
    not empty and no global variable is named [output_N]. *)
Theorem added_stage_quotes_previous_output
  (g : entries) (steps : list PromptChainStep) (fresh_id o : text)
  (Hlen : 1 <= length steps)
  (Ho : output_at steps (length steps - 1) = Some (Some o))
  (Hne : o <> [])
  (Hkeys : all_brace_free (keys g))
  (Hfree : ~ In (output_name (length steps - 1)) (keys g)) :
  let store := addStep fresh_id steps in
  substituteAll g store (instruction (data_at store (length steps)))
    (length steps)
  = str "Based on Stage " ++ show_nat (length steps)
    ++ str " output, expand on the third theme: " ++ o ++ str ".".
Proof.
  cbv zeta. set (n := length steps).
  assert (Hd : instruction (data_at (addStep fresh_id steps) n)
               = (str "Based on Stage " ++ show_nat n
                  ++ str " output, expand on the third theme: ")
                 ++ placeholder (output_name (n - 1)) ++ str ".").
  { unfold data_at, addStep. fold n.
    rewrite nth_error_app2, Nat.sub_diag by (unfold n; lia).
    cbn [nth_error promptData instruction].
    unfold placeholder, output_name.
    replace (n - 1 + 1) with n by (unfold n; lia).
    rewrite <- !app_assoc. simpl. rewrite <- !app_assoc. reflexivity. }
  rewrite Hd.
  assert (Ho' : output_at (addStep fresh_id steps) (n - 1) = Some (Some o)).
  { unfold output_at, addStep. rewrite nth_error_app1 by (fold n; lia).
    exact Ho. }
  pose proof (stage_receives_previous_output g (addStep fresh_id steps) (n - 1) o
                (str "Based on Stage " ++ show_nat n
                 ++ str " output, expand on the third theme: ")
                (str ".") Ho' Hne Hkeys Hfree) as H.
  replace (S (n - 1)) with n in H by (unfold n; lia).
  rewrite H.
  rewrite !substituteAll_plain; [now rewrite <- !app_assoc| reflexivity |].
  rewrite !brace_free_app, show_nat_brace_free. reflexivity.
Qed.

Lemma added_stage_witness :
  let steps := [stage_after completed (str "Bees are great.") (mk_step "A" "a")] in
  let store := addStep (str "id-2") steps in
  substituteAll [(str "topic", str "bees")] store
    (instruction (data_at store 1)) 1
  = str "Based on Stage " ++ show_nat 1
    ++ str " output, expand on the third theme: " ++ str "Bees are great."
    ++ str ".".
Proof.
  cbv zeta.
  apply (added_stage_quotes_previous_output [(str "topic", str "bees")]
           [stage_after completed (str "Bees are great.") (mk_step "A" "a")]
           (str "id-2") (str "Bees are great.")).
  - simpl. lia.
  - reflexivity.
  - discriminate.
  - repeat constructor.
  - simpl. intros [H|[]]. discriminate.
Defined.

(** ** Removing and renaming steps *)

Lemma filter_keeps_other_ids (id0 : text) (steps : list PromptChainStep) :
  ~ In id0 (map id steps) ->
  filter (fun x => negb (text_eqb (id x) id0)) steps = steps.
Proof.
  intros Hnot. apply forallb_filter_id. apply forallb_forall.
  intros x Hx. apply negb_true_iff, text_eqb_neq.
  intros Hid. apply Hnot. rewrite <- Hid. now apply in_map.
Qed.

Lemma filter_drops_position (steps : list PromptChainStep) :
  forall k s,
    NoDup (map id steps) -> nth_error steps k = Some s ->
    filter (fun x => negb (text_eqb (id x) (id s))) steps
    = firstn k steps ++ skipn (S k) steps.
Proof.
  induction steps as [|x l IH]; intros k s Hnd Hk; [destruct k; discriminate|].
  apply NoDup_cons_iff in Hnd as [Hx Hnd].
  destruct k as [|k]; simpl in Hk.
  - injection Hk as ->. cbn [filter]. rewrite text_eqb_refl. simpl.
    now apply filter_keeps_other_ids.
  - cbn [filter]. rewrite text_eqb_neq.
    + simpl. f_equal. now apply IH.
    + intros Hid. apply Hx. rewrite Hid. apply in_map.
      eapply nth_error_In; eauto.
Qed.

(** X11. Removing a step closes the gap.  In a chain of more than one step
    with distinct identifiers, [removeStep] with the identifier of the step
    at position [k] keeps the steps before [k] at their positions and moves
    those behind it one position down, so that the name [output_N] under
    which a later stage is seen changes.  With an identifier that no step
    carries, [removeStep] changes nothing. *)
Theorem removeStep_closes_the_gap :
  (forall (steps : list PromptChainStep) (k : nat) (s : PromptChainStep),
      NoDup (map id steps) -> 1 < length steps ->
      nth_error steps k = Some s ->
      removeStep (id s) steps = firstn k steps ++ skipn (S k) steps
      /\ forall j, nth_error (removeStep (id s) steps) j
                   = if j <? k then nth_error steps j
                     else nth_error steps (S j))
  /\ (forall (steps : list PromptChainStep) (id0 : text),
        ~ In id0 (map id steps) -> removeStep id0 steps = steps).
Proof.
  split.
  - intros steps k s Hnd Hlen Hk.
    assert (E : removeStep (id s) steps = firstn k steps ++ skipn (S k) steps).
    { unfold removeStep. destruct (Nat.ltb_spec 1 (length steps)); [|lia].
      now apply filter_drops_position. }
    split; [exact E|]. intros j. rewrite E.
    assert (Hkl : k < length steps) by (apply nth_error_Some; congruence).
    destruct (Nat.ltb_spec j k) as [Hjk|Hjk].
    + rewrite nth_error_app1 by (rewrite length_firstn; lia).
      rewrite nth_error_firstn.
      destruct (Nat.ltb_spec j k); [reflexivity|lia].
    + rewrite nth_error_app2 by (rewrite length_firstn; lia).
      rewrite length_firstn, nth_error_skipn. f_equal. lia.
  - intros steps id0 Hnot. unfold removeStep.
    destruct (1 <? length steps); [|reflexivity].
    now apply filter_keeps_other_ids.
Qed.

Lemma removeStep_closes_the_gap_witness :
  removeStep (str "B") [mk_step "A" "a"; mk_step "B" "b"; mk_step "C" "c"]
  = [mk_step "A" "a"; mk_step "C" "c"].
Proof.
  apply (proj1 (proj1 removeStep_closes_the_gap
                  [mk_step "A" "a"; mk_step "B" "b"; mk_step "C" "c"]
                  1 (mk_step "B" "b")
                  ltac:(repeat constructor; simpl; intuition discriminate)
                  ltac:(simpl; lia) eq_refl)).
Defined.

Lemma fullPrompt_inputs (g : entries) (S1 S2 : list PromptChainStep) (i : nat) :
  data_at S1 i = data_at S2 i ->
  map output S1 = map output S2 ->
  fullPrompt g S1 i = fullPrompt g S2 i.
Proof.
  intros Hd Ho. unfold fullPrompt. rewrite Hd.
  assert (E : forall t, substituteAll g S1 t i = substituteAll g S2 t i).
  { intros t. rewrite !substituteAll_scope. unfold effective_scope.
    now rewrite (prior_outputs_same_outputs S1 S2 i Ho). }
  now rewrite !E.
Qed.

Lemma updateStepField_changes_one_field_aux (id0 : text) (field : Field)
  (value : text) (steps : list PromptChainStep) :
  map output (updateStepField id0 field value steps) = map output steps
  /\ forall j s, nth_error steps j = Some s -> id s <> id0 ->
       nth_error (updateStepField id0 field value steps) j = Some s.
Proof.
  unfold updateStepField. split.
  - rewrite map_map. apply map_ext. intros s.
    destruct (text_eqb (id s) id0); reflexivity.
  - intros j s Hj Hid. rewrite nth_error_map, Hj. simpl.
    now rewrite text_eqb_neq.
Qed.

Lemma fullPrompt_before (g : entries) (S1 S2 : list PromptChainStep) (i : nat) :
  data_at S1 i = data_at S2 i ->
  (forall k, k < i -> output_at S1 k = output_at S2 k) ->
  fullPrompt g S1 i = fullPrompt g S2 i.
Proof.
  intros Hd Ho. unfold fullPrompt. rewrite Hd.
  assert (E : forall t, substituteAll g S1 t i = substituteAll g S2 t i).
  { intros t. rewrite !substituteAll_scope. unfold effective_scope.
    rewrite (prior_outputs_firstn S1), (prior_outputs_firstn S2).
    now rewrite (prior_outputs_same_outputs _ _ i (outputs_before S1 S2 i Ho)). }
  now rewrite !E.
Qed.

(** Two runs from stores whose prompts agree before position [n], and whose
    outputs agree before the current stage, send the same requests, with the
    same outcomes, to the stages before [n]. *)
Lemma runLoop_agree_before (tp : adapter) (g : entries) (n : nat) :
  forall todo i S1 S2 log,
    length S1 = length S2 ->
    length S1 <= i + todo ->
    (forall k, k < n -> data_at S1 k = data_at S2 k) ->
    (forall k, k < i -> output_at S1 k = output_at S2 k) ->
    exists new1 new2,
      sent (runLoop tp g todo i S1 log) = log ++ new1
      /\ sent (runLoop tp g todo i S2 log) = log ++ new2
      /\ firstn (n - i) new1 = firstn (n - i) new2.
Proof.
  induction todo as [|todo IH]; intros i S1 S2 log Hlen Hfuel Hd Ho.
  - exists [], []. simpl. rewrite app_nil_r. auto.
  - destruct (le_lt_dec (length S1) i) as [Hge|Hlt].
    + exists [], []. rewrite !runLoop_end by lia. simpl. rewrite app_nil_r. auto.
    + destruct (le_lt_dec n i) as [Hn|Hn].
      * destruct (runLoop_facts tp g (S todo) i S1 log Hfuel) as (n1 & F1 & _).
        destruct (runLoop_facts tp g (S todo) i S2 log) as (n2 & F2 & _);
          [lia|].
        exists n1, n2. replace (n - i) with 0 by lia. auto.
      * rewrite !runLoop_turn by lia. cbv zeta.
        rewrite <- (fullPrompt_before g S1 S2 i (Hd i Hn) Ho).
        set (req := fullPrompt g S1 i).
        set (st := status_for (outcome (tp i req))).
        set (o := concat (chunks (tp i req))).
        destruct (outcome (tp i req)) eqn:Eout.
        -- destruct (IH (i + 1) (update i (stage_after st o) S1)
                       (update i (stage_after st o) S2)
                       (log ++ [(req, fulfilled)]))
             as (new1 & new2 & H1 & H2 & H3).
           ++ now rewrite !length_update.
           ++ rewrite length_update. lia.
           ++ intros k Hk. rewrite !data_at_update by reflexivity. now apply Hd.
           ++ intros k Hk. destruct (Nat.eq_dec i k) as [<-|Hne].
              ** destruct (output_at_update_same i st o S1 Hlt) as [-> _].
                 destruct (output_at_update_same i st o S2) as [-> _];
                   [lia|reflexivity].
              ** rewrite !output_at_update_other by assumption. apply Ho. lia.
           ++ exists ((req, fulfilled) :: new1), ((req, fulfilled) :: new2).
              rewrite H1, H2, <- !app_assoc. repeat split.
              replace (n - i) with (S (n - (i + 1))) by lia.
              simpl. now rewrite H3.
        -- exists [(req, rejected)], [(req, rejected)]. cbn [sent].
           repeat split.
Qed.

(** X12. What an edit reaches.  On a given store, an edit of a prompt field
    with [updateStepField] changes the assembled request of the edited steps
    only: at every position whose step has another identifier,
    [fullPrompt] gives the same request after the edit as before it.  In a
    run, the calls made for the stages before the first step with the edited
    identifier are the same after the edit (the calls for later stages may
    differ, through the outputs that the run produces).  [updateStepName]
    changes no assembled request, no call of a run, and nothing but the
    names of the steps with the given identifier. *)
Theorem edits_reach_one_request :
  (forall (g : entries) (steps : list PromptChainStep) (id0 : text)
          (field : Field) (value : text) (i : nat) (s : PromptChainStep),
      nth_error steps i = Some s -> id s <> id0 ->
      fullPrompt g (updateStepField id0 field value steps) i
      = fullPrompt g steps i)
  /\ (forall (tp : adapter) (g : entries) (steps : list PromptChainStep)
             (id0 : text) (field : Field) (value : text) (n : nat),
        (forall k s, k < n -> nth_error steps k = Some s -> id s <> id0) ->
        firstn n (sent (runChain tp g (updateStepField id0 field value steps)))
        = firstn n (sent (runChain tp g steps)))
  /\ (forall (g : entries) (steps : list PromptChainStep) (id0 name0 : text)
             (i : nat),
        fullPrompt g (updateStepName id0 name0 steps) i = fullPrompt g steps i)
  /\ (forall (tp : adapter) (g : entries) (steps : list PromptChainStep)
             (id0 name0 : text),
        sent (runChain tp g (updateStepName id0 name0 steps))
        = sent (runChain tp g steps))
  /\ (forall (steps : list PromptChainStep) (id0 name0 : text),
        map id (updateStepName id0 name0 steps) = map id steps
        /\ map promptData (updateStepName id0 name0 steps) = map promptData steps
        /\ map output (updateStepName id0 name0 steps) = map output steps
        /\ map status (updateStepName id0 name0 steps) = map status steps
        /\ forall j s, nth_error steps j = Some s ->
             option_map name (nth_error (updateStepName id0 name0 steps) j)
             = Some (if text_eqb (id s) id0 then name0 else name s)).
Proof.
  assert (Hname : forall (steps : list PromptChainStep) (id0 name0 : text),
             map promptData (updateStepName id0 name0 steps)
             = map promptData steps
             /\ map output (updateStepName id0 name0 steps) = map output steps).
  { intros steps id0 name0. unfold updateStepName.
    split; rewrite map_map; apply map_ext; intros s;
      destruct (text_eqb (id s) id0); reflexivity. }
  split; [|split; [|split; [|split]]].
  - intros g steps id0 field value i s Hi Hid.
    destruct (updateStepField_changes_one_field_aux id0 field value steps)
      as (Hout & Hkeep).
    apply fullPrompt_inputs; [|exact Hout].
    unfold data_at. now rewrite (Hkeep i s Hi Hid), Hi.
  - intros tp g steps id0 field value n Hbefore.
    destruct (updateStepField_changes_one_field_aux id0 field value steps)
      as (Hout & Hkeep).
    set (S1 := updateStepField id0 field value steps) in *.
    assert (Hlen : length S1 = length steps)
      by (rewrite <- (length_map output S1), Hout; apply length_map).
    unfold runChain. rewrite <- Hlen.
    destruct (runLoop_agree_before tp g n (length S1) 0 S1 steps [] Hlen)
      as (new1 & new2 & H1 & H2 & H3).
    + lia.
    + intros k Hk. unfold data_at.
      destruct (nth_error steps k) as [s|] eqn:Ek.
      * now rewrite (Hkeep k s Ek (Hbefore k s Hk Ek)).
      * assert (E : nth_error S1 k = None)
          by (apply nth_error_None; rewrite Hlen; now apply nth_error_None).
        now rewrite E.
    + intros k Hk. lia.
    + rewrite Nat.sub_0_r in H3. now rewrite H1, H2.
  - intros g steps id0 name0 i.
    destruct (Hname steps id0 name0) as (Hp & Ho).
    apply fullPrompt_inputs; [|exact Ho].
    now apply data_at_same_prompts.
  - intros tp g steps id0 name0.
    destruct (Hname steps id0 name0) as (Hp & Ho).
    set (S1 := updateStepName id0 name0 steps) in *.
    assert (Hlen : length S1 = length steps)
      by (rewrite <- (length_map output S1), Ho; apply length_map).
    unfold runChain. rewrite <- Hlen.
    destruct (runLoop_agree tp g (length S1) 0 S1 steps []) as (new & H1 & H2 & _).
    + lia.
    + exact Hp.
    + intros j Hj. lia.
    + now rewrite H1, H2.
  - intros steps id0 name0. unfold updateStepName. repeat split.
    1-4: rewrite map_map; apply map_ext; intros s;
         destruct (text_eqb (id s) id0); reflexivity.
    intros j s Hj. rewrite nth_error_map, Hj. simpl.
    destruct (text_eqb (id s) id0); reflexivity.
Qed.

Lemma edits_reach_one_request_witness :
  let g := [(str "topic", str "bees")] in
  let chain := [mk_step "A" "one"; mk_step "B" "two"; mk_step "C" "three"] in
  fullPrompt g (updateStepField (str "B") f_role (str "critic") chain) 0
  = fullPrompt g chain 0
  /\ firstn 1 (sent (runChain echoes g
                       (updateStepField (str "B") f_role (str "critic") chain)))
     = firstn 1 (sent (runChain echoes g chain)).
Proof.
  cbv zeta. split.
  - apply (proj1 edits_reach_one_request [(str "topic", str "bees")]
             [mk_step "A" "one"; mk_step "B" "two"; mk_step "C" "three"]
             (str "B") f_role (str "critic") 0 (mk_step "A" "one")).
    + reflexivity.
    + discriminate.
  - apply (proj1 (proj2 edits_reach_one_request) echoes
             [(str "topic", str "bees")]
             [mk_step "A" "one"; mk_step "B" "two"; mk_step "C" "three"]
             (str "B") f_role (str "critic") 1).
    intros k s Hk Hs. assert (k = 0) by lia. subst k.
    injection Hs as <-. discriminate.
Defined.

(** The restriction to the earlier stages is needed: an edit of a step
    changes the request of a later step that quotes its output. *)
Example edit_of_an_earlier_step_reaches_a_later_request :
  let g := [(str "topic", str "bees")] in
  let chain := [mk_step "A" "one"; mk_step "B" "{{output_1}}"] in
  let edited := updateStepField (str "A") f_instruction (str "uno") chain in
  option_map fst (nth_error (sent (runChain echoes g edited)) 1)
  <> option_map fst (nth_error (sent (runChain echoes g chain)) 1).
Proof. cbv zeta. intros H. vm_compute in H. discriminate. Qed.

(** ** Detected names *)

Lemma find_close_one_line (s g rest : text) :
  find_close s = Some (g, rest) -> one_line g = true.
Proof.
  revert g rest; induction s as [|c s IH]; intros g rest H;
    rewrite find_close_unfold in H.
  - discriminate.
  - destruct (starts_with [rbrace; rbrace] (c :: s)).
    + injection H as <- _. reflexivity.
    + destruct (is_line_terminator c) eqn:Ec; [discriminate|].
      destruct (find_close s) as [[g' rest']|]; [|discriminate].
      injection H as <- _. unfold one_line. simpl. rewrite Ec. simpl.
      now apply (IH g' rest').
Qed.

Lemma matches_are_placeholders (t : text) :
  forall skip m,
    In m (match_from skip t) ->
    exists g, m = placeholder g /\ one_line g = true /\ occurs m t.
Proof.
  induction t as [|c t IH]; intros skip m Hin; [contradiction|].
  assert (Htail : forall k, In m (match_from k t) ->
            exists g, m = placeholder g /\ one_line g = true
                      /\ occurs m (c :: t)).
  { intros k Hk. destruct (IH k m Hk) as (g & H1 & H2 & H3).
    exists g. repeat split; auto. now apply occurs_cons. }
  cbn [match_from] in Hin. destruct skip as [|skip]; [|eauto].
  destruct (starts_with [lbrace; lbrace] (c :: t)) eqn:E; [|eauto].
  destruct (find_close (skipn 2 (c :: t))) as [[g rest]|] eqn:Ef; [|eauto].
  destruct Hin as [<-|Hin]; [|eauto].
  exists g. split; [reflexivity|]. split; [eapply find_close_one_line; eauto|].
  destruct (starts_with_inv _ _ E) as [s Hs]. rewrite Hs in Ef |- *.
  cbn [skipn app] in Ef. apply find_close_spec in Ef.
  exists [], rest. simpl. rewrite Ef. unfold placeholder.
  now rewrite <- app_assoc.
Qed.

Lemma strip_braces_placeholder (g : text) :
  strip_braces (placeholder g) = strip_braces g.
Proof.
  unfold strip_braces, placeholder. cbn [filter].
  rewrite N.eqb_refl. cbn [orb negb]. rewrite filter_app. simpl.
  apply app_nil_r.
Qed.

Lemma strip_braces_brace_free (v : text) : brace_free (strip_braces v) = true.
Proof.
  unfold brace_free, strip_braces. apply forallb_forall.
  intros c Hc. now apply filter_In in Hc as [_ Hc].
Qed.

Lemma strip_braces_plain (n : text) :
  brace_free n = true -> strip_braces n = n.
Proof. intros H. unfold strip_braces. now apply forallb_filter_id. Qed.

Lemma one_line_strip_braces (g : text) :
  one_line g = true -> one_line (strip_braces g) = true.
Proof.
  unfold one_line, strip_braces. rewrite !forallb_forall.
  intros H c Hc. apply filter_In in Hc as [Hc _]. auto.
Qed.

(** X13. Every name that [detectedVars] returns comes from the text: it is
    what is left, once the braces are deleted, of the inside [g] of an
    occurrence [{{g}}] in the joined fields, and [g] has no line terminator.
    The name itself has no brace and no line terminator, so it is a key for
    which unresolved placeholders pass through. *)
Theorem detected_names_come_from_the_text (values : list text) (n : text) :
  In n (detect_in_values values) ->
  (exists g, occurs (placeholder g) (join [space] values)
             /\ one_line g = true /\ n = strip_braces g)
  /\ brace_free n = true
  /\ one_line n = true.
Proof.
  unfold detect_in_values. rewrite Array_from_Set_In, in_map_iff.
  intros (m & <- & Hm).
  destruct (matches_are_placeholders _ _ _ Hm) as (g & -> & Hg & Hocc).
  rewrite strip_braces_placeholder. split; [|split].
  - now exists g.
  - apply strip_braces_brace_free.
  - now apply one_line_strip_braces.
Qed.

Lemma detected_names_witness :
  brace_free (str "ab") = true /\ one_line (str "ab") = true.
Proof.
  apply (detected_names_come_from_the_text
           [str "x {{a}b}} y"; str "z"] (str "ab")).
  simpl. left. reflexivity.
Defined.

(** ** Templates in good form *)

Lemma brace_free_open_free (t : text) : brace_free t = true -> open_free t.
Proof.
  induction t as [|c t IH]; intros H; [constructor|].
  apply brace_free_cons in H as (Hc & _ & Ht).
  constructor; [exact Hc|now apply IH].
Qed.

Lemma match_from_plain (t rest : text) :
  brace_free t = true -> match_from 0 (t ++ rest) = match_from 0 rest.
Proof.
  induction t as [|c t IH]; intros H; [reflexivity|].
  apply brace_free_cons in H as (Hc & _ & Ht).
  simpl app. rewrite match_from_miss; [auto|].
  left. cbn [starts_with].
  destruct (N.eqb_spec lbrace c); [congruence|reflexivity].
Qed.

Lemma find_close_name (n rest : text) :
  brace_free n = true -> one_line n = true ->
  find_close (n ++ rbrace :: rbrace :: rest) = Some (n, rest).
Proof.
  induction n as [|c n IH]; intros Hb Hl; rewrite find_close_unfold.
  - reflexivity.
  - apply brace_free_cons in Hb as (_ & Hc & Hb).
    unfold one_line in Hl. cbn [forallb] in Hl.
    apply andb_true_iff in Hl as [Hc' Hl]. apply negb_true_iff in Hc'.
    cbn [app starts_with].
    destruct (N.eqb_spec rbrace c); [congruence|]. cbn [andb].
    rewrite Hc'. now rewrite IH.
Qed.

Lemma match_from_render (segs : list segment) (rest : text) :
  good_form segs = true ->
  match_from 0 (render segs ++ rest)
  = map placeholder (variables_of segs) ++ match_from 0 rest.
Proof.
  unfold good_form, render.
  induction segs as [|s segs IH]; intros H; [reflexivity|].
  cbn [forallb] in H. apply andb_true_iff in H as [Hs H].
  cbn [map concat]. rewrite <- app_assoc.
  destruct s as [t|n]; cbn [render_segment variables_of flat_map good_segment] in *.
  - rewrite match_from_plain by assumption. now apply IH.
  - apply andb_true_iff in Hs as [Hb Hl].
    unfold placeholder at 1. cbn [app]. rewrite <- app_assoc. cbn [app].
    rewrite (match_from_hit _ n (concat (map render_segment segs) ++ rest))
      by now apply find_close_name.
    cbn [app map]. f_equal. now apply IH.
Qed.

Lemma match_placeholders_templates (templates : list (list segment)) :
  Forall (fun segs => good_form segs = true) templates ->
  match_placeholders (join [space] (map render templates))
  = map placeholder (flat_map variables_of templates).
Proof.
  unfold match_placeholders.
  induction 1 as [|segs templates Hs Hrest IH]; [reflexivity|].
  destruct templates as [|segs' templates].
  - cbn [map join flat_map]. rewrite <- (app_nil_r (render segs)).
    rewrite match_from_render by assumption.
    now rewrite !app_nil_r.
  - change (join [space] (map render (segs :: segs' :: templates)))
      with (render segs ++ space :: join [space] (map render (segs' :: templates))).
    rewrite match_from_render by assumption.
    rewrite (match_from_miss space) by (left; reflexivity).
    rewrite IH. cbn [flat_map]. now rewrite !map_app.
Qed.

Lemma variables_of_plain (segs : list segment) :
  good_form segs = true ->
  Forall (fun n => brace_free n = true) (variables_of segs).
Proof.
  unfold good_form. induction segs as [|s segs IH]; intros H; [constructor|].
  cbn [forallb] in H. apply andb_true_iff in H as [Hs H].
  destruct s as [t|n]; cbn [variables_of flat_map app]; [now apply IH|].
  simpl in Hs. apply andb_true_iff in Hs as [Hb _].
  constructor; [exact Hb|now apply IH].
Qed.

(** X14. On templates in good form the discovery is exact: [detectedVars]
    returns the names of the variables of the fields, each once, in the
    order in which they first come. *)
Theorem detection_is_exact_on_good_templates
  (templates : list (list segment))
  (Hgood : Forall (fun segs => good_form segs = true) templates) :
  detect_in_values (map render templates)
  = Array_from_Set (flat_map variables_of templates).
Proof.
  unfold detect_in_values. rewrite match_placeholders_templates by assumption.
  rewrite map_map. f_equal.
  rewrite <- (map_id (flat_map variables_of templates)) at 2.
  apply map_ext_in. intros n Hn. rewrite strip_braces_placeholder.
  apply strip_braces_plain.
  apply in_flat_map in Hn as (segs & Hsegs & Hn).
  rewrite Forall_forall in Hgood.
  pose proof (variables_of_plain segs (Hgood segs Hsegs)) as Hv.
  rewrite Forall_forall in Hv. auto.
Qed.

Lemma detection_is_exact_witness :
  detect_in_values
    (map render [[Plain (str "Review "); Var (str "code_block"); Plain (str ".")];
                 [Var (str "lang"); Plain (str " and "); Var (str "code_block")]])
  = Array_from_Set [str "code_block"; str "lang"; str "code_block"].
Proof.
  apply (detection_is_exact_on_good_templates
           [[Plain (str "Review "); Var (str "code_block"); Plain (str ".")];
            [Var (str "lang"); Plain (str " and "); Var (str "code_block")]]).
  repeat constructor.
Defined.

(** ** Resolution of templates in good form *)

Lemma render_cons (s : segment) (segs : list segment) :
  render (s :: segs) = render_segment s ++ render segs.
Proof. reflexivity. Qed.

Lemma pass_on_template (k v : text) (segs : list segment) :
  brace_free k = true -> good_form segs = true ->
  replace_all (placeholder k) v (render segs)
  = render (resolve_segments [(k, v)] segs).
Proof.
  intros Hk. unfold good_form.
  induction segs as [|s segs IH]; intros H; [reflexivity|].
  cbn [forallb] in H. apply andb_true_iff in H as [Hs H].
  cbn [resolve_segments map]. rewrite !render_cons.
  fold (resolve_segments [(k, v)] segs). rewrite <- IH by assumption.
  destruct s as [t|n]; cbn [render_segment resolve_segment good_segment] in *.
  - unfold placeholder. apply replace_all_open_free.
    now apply brace_free_open_free.
  - apply andb_true_iff in Hs as [Hn _].
    rewrite replace_all_at_placeholder by assumption.
    cbn [bound_to]. destruct (text_eqb k n); reflexivity.
Qed.

Lemma good_form_after_pass (k v : text) (segs : list segment) :
  brace_free v = true -> good_form segs = true ->
  good_form (resolve_segments [(k, v)] segs) = true.
Proof.
  intros Hv. unfold good_form, resolve_segments. rewrite !forallb_forall.
  intros H s Hs. apply in_map_iff in Hs as (s0 & <- & Hs0).
  specialize (H s0 Hs0). destruct s0 as [t|n]; [exact H|].
  cbn [resolve_segment bound_to]. destruct (text_eqb k n); [exact Hv|exact H].
Qed.

Lemma resolve_after_pass (k v : text) (scope : entries) (segs : list segment) :
  resolve_segments scope (resolve_segments [(k, v)] segs)
  = resolve_segments ((k, v) :: scope) segs.
Proof.
  unfold resolve_segments. rewrite map_map. apply map_ext.
  intros [t|n]; [reflexivity|].
  cbn [resolve_segment bound_to]. destruct (text_eqb k n); reflexivity.
Qed.

Lemma substituteVars_template (scope : entries) :
  all_brace_free (keys scope) -> all_brace_free (map snd scope) ->
  forall segs, good_form segs = true ->
  substituteVars scope (render segs) = render (resolve_segments scope segs).
Proof.
  induction scope as [|[k v] scope IH]; intros Hk Hv segs Hg.
  - unfold resolve_segments. simpl.
    rewrite <- (map_id segs) at 1. f_equal. apply map_ext.
    intros [t|n]; reflexivity.
  - apply Forall_cons_iff in Hk as [Hk Hks].
    apply Forall_cons_iff in Hv as [Hv Hvs]. simpl in Hk, Hv.
    rewrite substituteVars_cons, pass_on_template by assumption.
    rewrite IH by (auto using good_form_after_pass).
    apply f_equal, resolve_after_pass.
Qed.

Lemma bound_to_In (n v : text) (scope : entries) :
  NoDup (keys scope) -> (bound_to n scope = Some v <-> In (n, v) scope).
Proof.
  induction scope as [|[k w] scope IH]; intros Hnd; simpl.
  - split; [discriminate|contradiction].
  - simpl in Hnd. apply NoDup_cons_iff in Hnd as [Hk Hnd].
    destruct (text_eqb k n) eqn:E.
    + apply text_eqb_eq in E. subst k. split.
      * intros H. injection H as ->. now left.
      * intros [H|H]; [congruence|].
        exfalso. apply Hk. unfold keys. apply in_map_iff.
        now exists (n, v).
    + rewrite (IH Hnd). split; [now right|].
      intros [H|H]; [|exact H].
      injection H as -> ->. rewrite text_eqb_refl in E. discriminate.
Qed.

Lemma bound_to_permutation (n : text) (scope scope' : entries) :
  NoDup (keys scope) -> Permutation scope scope' ->
  bound_to n scope = bound_to n scope'.
Proof.
  intros Hnd Hp.
  assert (Hnd' : NoDup (keys scope'))
    by (eapply Permutation_NoDup; [apply Permutation_map; exact Hp|exact Hnd]).
  destruct (bound_to n scope) as [v|] eqn:E.
  - symmetry. apply bound_to_In; [exact Hnd'|].
    eapply Permutation_in; [exact Hp|]. now apply bound_to_In.
  - destruct (bound_to n scope') as [v'|] eqn:E'; [|reflexivity].
    apply bound_to_In in E'; [|exact Hnd'].
    apply (Permutation_in _ (Permutation_sym Hp)) in E'.
    apply (bound_to_In n v' scope Hnd) in E'. congruence.
Qed.

(** X15. On a template in good form, with keys and values free of braces,
    [substituteVars] is the substitution made at once: every variable that
    the scope binds is replaced by its value, the others stay, and no value
    is scanned again.  The result is then the same for every order of the
    entries of the scope. *)
Theorem resolution_of_good_templates
  (scope : entries) (segs : list segment)
  (Hkeys : all_brace_free (keys scope))
  (Hvalues : all_brace_free (map snd scope))
  (Hgood : good_form segs = true) :
  substituteVars scope (render segs) = render (resolve_segments scope segs)
  /\ forall scope', NoDup (keys scope) -> Permutation scope scope' ->
       substituteVars scope' (render segs) = substituteVars scope (render segs).
Proof.
  split; [now apply substituteVars_template|].
  intros scope' Hnd Hp.
  rewrite !substituteVars_template; auto.
  - f_equal. unfold resolve_segments. apply map_ext.
    intros [t|n]; [reflexivity|]. cbn [resolve_segment].
    now rewrite (bound_to_permutation n scope scope' Hnd Hp).
  - unfold all_brace_free, keys in *.
    eapply Permutation_Forall; [apply Permutation_map; exact Hp|exact Hkeys].
  - unfold all_brace_free in *.
    eapply Permutation_Forall; [apply Permutation_map; exact Hp|exact Hvalues].
Qed.

Lemma resolution_of_good_templates_witness :
  substituteVars [(str "b", str "X"); (str "a", str "Y")]
    (render [Plain (str "Say "); Var (str "a"); Plain (str " to "); Var (str "c")])
  = render (resolve_segments [(str "b", str "X"); (str "a", str "Y")]
              [Plain (str "Say "); Var (str "a"); Plain (str " to ");
               Var (str "c")]).
Proof.
  apply resolution_of_good_templates; repeat constructor.
Defined.

Lemma bound_value (n : text) (scope : entries) :
  In n (keys scope) -> exists v, bound_to n scope = Some v /\ In v (map snd scope).
Proof.
  induction scope as [|[k w] scope IH]; intros H; [contradiction|].
  simpl. destruct (text_eqb k n) eqn:E.
  - exists w. split; [reflexivity|now left].
  - destruct H as [H|H].
    + simpl in H. subst k. rewrite text_eqb_refl in E. discriminate.
    + destruct (IH H) as (v & Hv & Hin). exists v. split; [exact Hv|now right].
Qed.

Lemma resolved_template_plain (scope : entries) (segs : list segment) :
  all_brace_free (keys scope) -> all_brace_free (map snd scope) ->
  good_form segs = true ->
  Forall (fun n => In n (keys scope)) (variables_of segs) ->
  brace_free (substituteVars scope (render segs)) = true.
Proof.
  intros Hk Hv Hg Hb. rewrite substituteVars_template by assumption.
  unfold good_form in Hg. induction segs as [|s segs IH]; [reflexivity|].
  cbn [forallb] in Hg. apply andb_true_iff in Hg as [Hs Hg].
  cbn [resolve_segments map]. rewrite render_cons, brace_free_app.
  fold (resolve_segments scope segs).
  destruct s as [t|n]; cbn [variables_of flat_map app] in Hb.
  - cbn [resolve_segment render_segment]. simpl in Hs. rewrite Hs. now apply IH.
  - apply Forall_cons_iff in Hb as [Hn Hb].
    destruct (bound_value n scope Hn) as (v & Hbv & Hin).
    cbn [resolve_segment]. rewrite Hbv. cbn [render_segment].
    unfold all_brace_free in Hv. rewrite Forall_forall in Hv.
    rewrite (Hv v Hin). now apply IH.
Qed.

(** X16. Once every variable of a template in good form has a value, nothing
    is left to resolve: the result has no brace, hence no placeholder, and
    resolving it again with any scope returns it unchanged. *)
Theorem bound_template_resolves_fully
  (scope : entries) (segs : list segment)
  (Hkeys : all_brace_free (keys scope))
  (Hvalues : all_brace_free (map snd scope))
  (Hgood : good_form segs = true)
  (Hbound : Forall (fun n => In n (keys scope)) (variables_of segs)) :
  brace_free (substituteVars scope (render segs)) = true
  /\ (forall k, ~ occurs (placeholder k) (substituteVars scope (render segs)))
  /\ (forall scope', substituteVars scope' (substituteVars scope (render segs))
                     = substituteVars scope (render segs)).
Proof.
  pose proof (resolved_template_plain scope segs Hkeys Hvalues Hgood Hbound) as H.
  split; [exact H|]. split.
  - intros k. now apply brace_free_not_occurs.
  - intros scope'. now apply substituteVars_plain.
Qed.

Lemma bound_template_witness :
  brace_free
    (substituteVars [(str "topic", str "bees"); (str "tone", str "dry")]
       (render [Plain (str "Write on "); Var (str "topic"); Plain (str " in a ");
                Var (str "tone"); Plain (str " tone.")])) = true.
Proof.
  apply (proj1 (bound_template_resolves_fully
                  [(str "topic", str "bees"); (str "tone", str "dry")]
                  [Plain (str "Write on "); Var (str "topic"); Plain (str " in a ");
                   Var (str "tone"); Plain (str " tone.")]
                  ltac:(repeat constructor) ltac:(repeat constructor) eq_refl
                  ltac:(repeat constructor; simpl; tauto))).
Defined.

(** ** The request texts of the tester *)

Lemma prior_outputs_zero (store : list PromptChainStep) :
  prior_outputs store 0 = [].
Proof. unfold prior_outputs, indexed. now apply outputs_from_empty. Qed.

(** X17. The first stage of a chain is sent the text that the tester builds
    with [getFullPrompt] from the same prompt and the same variables. *)
Theorem first_request_is_the_tester_request
  (g : entries) (store : list PromptChainStep) :
  fullPrompt g store 0 = getFullPrompt g (data_at store 0).
Proof.
  unfold fullPrompt, getFullPrompt.
  assert (E : forall t, substituteAll g store t 0 = substituteVars g t).
  { intros t. rewrite substituteAll_scope. unfold effective_scope.
    now rewrite prior_outputs_zero, app_nil_r. }
  now rewrite !E.
Qed.

(** X18. The system instruction of the tester has no unresolved placeholder
    once every variable has a plain value: for a prompt whose five fields are
    templates in good form with all their variables bound,
    [getSystemInstruction] and [getFullPrompt] return a text without
    brace. *)
Theorem system_instruction_fully_resolved
  (variables : entries) (r i c k e : list segment)
  (Hkeys : all_brace_free (keys variables))
  (Hvalues : all_brace_free (map snd variables))
  (Hgood : Forall (fun segs => good_form segs = true) [r; i; c; k; e])
  (Hbound : Forall (fun segs =>
                      Forall (fun n => In n (keys variables)) (variables_of segs))
              [r; i; c; k; e]) :
  let data0 := {| role := render r; instruction := render i;
                  context := render c; constraints := render k;
                  evaluation := render e |} in
  brace_free (getSystemInstruction variables data0) = true
  /\ brace_free (getFullPrompt variables data0) = true.
Proof.
  cbv zeta.
  repeat match goal with
         | H : Forall _ (_ :: _) |- _ => apply Forall_cons_iff in H as [? H]
         end.
  unfold getSystemInstruction, getFullPrompt.
  cbn [role instruction context constraints evaluation].
  split;
    repeat (rewrite ?brace_free_app; cbn [brace_free forallb];
            rewrite ?resolved_template_plain by assumption;
            fold (brace_free); try reflexivity).
Qed.

Lemma system_instruction_witness :
  brace_free
    (getSystemInstruction [(str "topic", str "bees")]
       {| role := render [Plain (str "Expert on "); Var (str "topic")];
          instruction := render [Plain (str "Summarize "); Var (str "topic")];
          context := render []; constraints := render [Plain (str "Short.")];
          evaluation := render [] |}) = true.
Proof.
  apply (proj1 (system_instruction_fully_resolved [(str "topic", str "bees")]
                  [Plain (str "Expert on "); Var (str "topic")]
                  [Plain (str "Summarize "); Var (str "topic")]
                  [] [Plain (str "Short.")] []
                  ltac:(repeat constructor) ltac:(repeat constructor)
                  ltac:(repeat constructor)
                  ltac:(repeat constructor; simpl; tauto))).
Defined.

(** ** Undo and redo *)

Lemma pushSnapshot_spec (snapshot : RiccePrompt) (st : HistoryState) :
  history_ok st ->
  history (pushSnapshot snapshot st)
  = (if historyIndex st =? MAX_HISTORY - 1
     then tl (firstn (historyIndex st + 1) (history st))
     else firstn (historyIndex st + 1) (history st)) ++ [snapshot]
  /\ historyIndex (pushSnapshot snapshot st)
     = (if historyIndex st =? MAX_HISTORY - 1 then historyIndex st
        else historyIndex st + 1)
  /\ length (history (pushSnapshot snapshot st))
     = S (historyIndex (pushSnapshot snapshot st)).
Proof.
  intros [Hi Hl]. unfold pushSnapshot, MAX_HISTORY in *. cbn [history historyIndex].
  rewrite length_app, length_firstn. cbn [length].
  replace (Nat.min (historyIndex st + 1) (length (history st)))
    with (historyIndex st + 1) by lia.
  destruct (Nat.eqb_spec (historyIndex st) (50 - 1)) as [E|E].
  - replace (50 <? historyIndex st + 1 + 1) with true
      by (symmetry; apply Nat.ltb_lt; lia).
    assert (Hf : length (firstn (historyIndex st + 1) (history st))
                 = historyIndex st + 1) by (rewrite length_firstn; lia).
    destruct (firstn (historyIndex st + 1) (history st)) as [|x l] eqn:Ef;
      [simpl in Hf; lia|].
    simpl in Hf. simpl. rewrite length_app. simpl. repeat split; lia.
  - replace (50 <? historyIndex st + 1 + 1) with false
      by (symmetry; apply Nat.ltb_ge; lia).
    rewrite length_app, length_firstn. simpl. repeat split; lia.
Qed.

Lemma nth_error_last_pushed {A : Type} (l : list A) (x : A) (n : nat) :
  length (l ++ [x]) = S n -> nth_error (l ++ [x]) n = Some x.
Proof.
  rewrite length_app. simpl. intros H.
  rewrite nth_error_app2 by lia. replace (n - length l) with 0 by lia.
  reflexivity.
Qed.

Lemma pushSnapshot_last (snapshot : RiccePrompt) (st : HistoryState) :
  history_ok st ->
  nth_error (history (pushSnapshot snapshot st))
    (historyIndex (pushSnapshot snapshot st)) = Some snapshot.
Proof.
  intros Hok. destruct (pushSnapshot_spec snapshot st Hok) as (Hh & _ & Hl).
  rewrite Hh in Hl |- *. now apply nth_error_last_pushed.
Qed.

(** X19. The history stays in order.  Where the index points into a history
    of at most fifty snapshots, this is still so after [pushSnapshot],
    [handleUndo] and [handleRedo]; after [pushSnapshot] the index points to
    the last snapshot, which is the one just pushed. *)
Theorem history_stays_in_order (st : HistoryState) (Hok : history_ok st) :
  (forall snapshot,
      history_ok (pushSnapshot snapshot st)
      /\ length (history (pushSnapshot snapshot st))
         = S (historyIndex (pushSnapshot snapshot st))
      /\ nth_error (history (pushSnapshot snapshot st))
           (historyIndex (pushSnapshot snapshot st)) = Some snapshot)
  /\ history_ok (fst (handleUndo st))
  /\ history_ok (fst (handleRedo st)).
Proof.
  split; [|split].
  - intros snapshot.
    destruct (pushSnapshot_spec snapshot st Hok) as (Hh & Hi & Hl).
    destruct Hok as [Hidx Hlen]. unfold history_ok, MAX_HISTORY in *.
    split; [|split].
    + rewrite Hl, Hi. destruct (Nat.eqb_spec (historyIndex st) (50 - 1)); lia.
    + exact Hl.
    + apply pushSnapshot_last. now split.
  - unfold handleUndo. destruct Hok as [Hidx Hlen].
    destruct (0 <? historyIndex st); [|now split].
    split; simpl; [lia|exact Hlen].
  - unfold handleRedo. destruct Hok as [Hidx Hlen].
    destruct (Nat.ltb_spec (historyIndex st) (length (history st) - 1));
      [|now split].
    split; simpl; [lia|exact Hlen].
Qed.

Lemma history_stays_in_order_witness :
  history_ok (fst (handleUndo three_snapshots)).
Proof.
  apply (proj1 (proj2 (history_stays_in_order three_snapshots
                         ltac:(split; simpl; unfold MAX_HISTORY; lia)))).
Defined.

(** X20. Undo takes back the last edit and redo brings it back: after a
    snapshot has been pushed, [handleUndo] hands over the snapshot that was
    current before, and [handleRedo] then hands over the pushed one and
    returns to the state after the push. *)
Theorem undo_takes_back_the_push
  (st : HistoryState) (current snapshot : RiccePrompt)
  (Hok : history_ok st)
  (Hcur : nth_error (history st) (historyIndex st) = Some current) :
  snd (handleUndo (pushSnapshot snapshot st)) = Some (Some current)
  /\ handleRedo (fst (handleUndo (pushSnapshot snapshot st)))
     = (pushSnapshot snapshot st, Some (Some snapshot)).
Proof.
  destruct (pushSnapshot_spec snapshot st Hok) as (Hh & Hi & Hl).
  destruct Hok as [Hidx Hlen]. unfold MAX_HISTORY in *.
  set (st' := pushSnapshot snapshot st) in *.
  assert (Hpos : 0 < historyIndex st')
    by (rewrite Hi; destruct (Nat.eqb_spec (historyIndex st) (50 - 1)); lia).
  assert (Hprev : nth_error (history st') (historyIndex st' - 1) = Some current).
  { rewrite Hh, Hi.
    destruct (Nat.eqb_spec (historyIndex st) (50 - 1)) as [E|E].
    - assert (Hf : length (firstn (historyIndex st + 1) (history st))
                   = historyIndex st + 1) by (rewrite length_firstn; lia).
      assert (Hn : nth_error (firstn (historyIndex st + 1) (history st))
                     (historyIndex st) = Some current).
      { rewrite nth_error_firstn.
        destruct (Nat.ltb_spec (historyIndex st) (historyIndex st + 1)); [|lia].
        exact Hcur. }
      destruct (firstn (historyIndex st + 1) (history st)) as [|x l];
        [simpl in Hf; lia|].
      simpl in Hf. cbn [tl]. rewrite nth_error_app1 by lia.
      replace (historyIndex st) with (S (historyIndex st - 1)) in Hn by lia.
      exact Hn.
    - replace (historyIndex st + 1 - 1) with (historyIndex st) by lia.
      rewrite nth_error_app1 by (rewrite length_firstn; lia).
      rewrite nth_error_firstn.
      destruct (Nat.ltb_spec (historyIndex st) (historyIndex st + 1)); [|lia].
      exact Hcur. }
  assert (Hlast : nth_error (history st') (historyIndex st') = Some snapshot).
  { apply pushSnapshot_last. now split. }
  unfold handleUndo.
  destruct (Nat.ltb_spec 0 (historyIndex st')); [|lia].
  cbn [fst snd]. split; [now rewrite Hprev|].
  unfold handleRedo. cbn [history historyIndex].
  destruct (Nat.ltb_spec (historyIndex st' - 1) (length (history st') - 1));
    [|lia].
  replace (historyIndex st' - 1 + 1) with (historyIndex st') by lia.
  rewrite Hlast. destruct st'; reflexivity.
Qed.

Lemma undo_takes_back_witness :
  snd (handleUndo (pushSnapshot (set_field f_role (str "abc") empty_prompt)
                     three_snapshots))
  = Some (Some (set_field f_role (str "a") empty_prompt)).
Proof.
  apply (proj1 (undo_takes_back_the_push three_snapshots
                  (set_field f_role (str "a") empty_prompt)
                  (set_field f_role (str "abc") empty_prompt)
                  ltac:(split; simpl; unfold MAX_HISTORY; lia) eq_refl)).
Defined.

(** X21. Undo and redo are inverse to each other: after an undo, redo leads
    back to the same state and hands over the snapshot left; after a redo,
    undo does. *)
Theorem undo_and_redo_are_inverse (st : HistoryState) (Hok : history_ok st) :
  (0 < historyIndex st ->
   handleRedo (fst (handleUndo st))
   = (st, Some (nth_error (history st) (historyIndex st))))
  /\ (historyIndex st < length (history st) - 1 ->
      handleUndo (fst (handleRedo st))
      = (st, Some (nth_error (history st) (historyIndex st)))).
Proof.
  destruct Hok as [Hidx Hlen]. split; intros H.
  - unfold handleUndo. destruct (Nat.ltb_spec 0 (historyIndex st)); [|lia].
    cbn [fst]. unfold handleRedo. cbn [history historyIndex].
    destruct (Nat.ltb_spec (historyIndex st - 1) (length (history st) - 1));
      [|lia].
    replace (historyIndex st - 1 + 1) with (historyIndex st) by lia.
    destruct st; reflexivity.
  - unfold handleRedo.
    destruct (Nat.ltb_spec (historyIndex st) (length (history st) - 1)); [|lia].
    cbn [fst]. unfold handleUndo. cbn [history historyIndex].
    destruct (Nat.ltb_spec 0 (historyIndex st + 1)); [|lia].
    replace (historyIndex st + 1 - 1) with (historyIndex st) by lia.
    destruct st; reflexivity.
Qed.

Lemma undo_and_redo_witness :
  handleRedo (fst (handleUndo three_snapshots))
  = (three_snapshots,
     Some (nth_error (history three_snapshots) (historyIndex three_snapshots))).
Proof.
  apply (proj1 (undo_and_redo_are_inverse three_snapshots
                  ltac:(split; simpl; unfold MAX_HISTORY; lia))).
  simpl. lia.
Defined.

(** X22. A push forgets what could be redone and never lets the history
    grow beyond fifty snapshots: after [pushSnapshot], [handleRedo] does
    nothing; the snapshots behind the index are dropped, and so is the
    oldest snapshot when the index was at the forty-ninth position. *)
Theorem push_forgets_redo
  (st : HistoryState) (snapshot : RiccePrompt) (Hok : history_ok st) :
  handleRedo (pushSnapshot snapshot st) = (pushSnapshot snapshot st, None)
  /\ history (pushSnapshot snapshot st)
     = (if historyIndex st =? MAX_HISTORY - 1
        then tl (firstn (historyIndex st + 1) (history st))
        else firstn (historyIndex st + 1) (history st)) ++ [snapshot]
  /\ length (history (pushSnapshot snapshot st)) <= MAX_HISTORY.
Proof.
  destruct (pushSnapshot_spec snapshot st Hok) as (Hh & Hi & Hl).
  split; [|split].
  - unfold handleRedo. rewrite Hl.
    destruct (Nat.ltb_spec (historyIndex (pushSnapshot snapshot st))
                (S (historyIndex (pushSnapshot snapshot st)) - 1));
      [lia|reflexivity].
  - exact Hh.
  - rewrite Hl, Hi. destruct Hok as [Hidx Hlen]. unfold MAX_HISTORY in *.
    destruct (Nat.eqb_spec (historyIndex st) (50 - 1)); lia.
Qed.

Lemma push_forgets_redo_witness :
  handleRedo (pushSnapshot empty_prompt three_snapshots)
  = (pushSnapshot empty_prompt three_snapshots, None).
Proof.
  apply (proj1 (push_forgets_redo three_snapshots empty_prompt
                  ltac:(split; simpl; unfold MAX_HISTORY; lia))).
Defined.

(** ** The log of the tester *)

Lemma In_firstn_full {A : Type} (n : nat) (l : list A) (x : A) :
  In x (firstn n l) -> In x l.
Proof.
  intros H. rewrite <- (firstn_skipn n l). apply in_or_app. now left.
Qed.

(** X23. The log of runs holds at most fifty items, the newest first:
    [saveToHistory] puts the new item in front of the forty-nine newest
    items of the log.  Deleting the item just saved gives the log back when
    it held fewer than fifty items and the new identifier is fresh; from a
    full log the oldest item is lost. *)
Theorem log_keeps_fifty_newest
  (fresh_id : text) (now : N) (view : Tester.View) (finalA : text)
  (finalB : option text) (prev : list Tester.PromptHistoryItem) :
  let log := Tester.saveToHistory fresh_id now view finalA finalB prev in
  length log <= 50
  /\ (exists item,
        log = item :: firstn 49 prev
        /\ Tester.id item = fresh_id
        /\ Tester.outputA item = finalA /\ Tester.outputB item = finalB
        /\ Tester.promptData item = Tester.currentPrompt view
        /\ Tester.variables item = Tester.currentVariables view)
  /\ (~ In fresh_id (map Tester.id prev) ->
      Tester.deleteHistoryItem fresh_id log = firstn 49 prev)
  /\ (~ In fresh_id (map Tester.id prev) -> length prev < 50 ->
      Tester.deleteHistoryItem fresh_id log = prev).
Proof.
  cbv zeta. unfold Tester.saveToHistory.
  change (firstn 50 (?x :: prev)) with (x :: firstn 49 prev).
  assert (Hdel : ~ In fresh_id (map Tester.id prev) ->
                 Tester.deleteHistoryItem fresh_id
                   ({| Tester.id := fresh_id; Tester.timestamp := now;
                       Tester.promptData := Tester.currentPrompt view;
                       Tester.variables := Tester.currentVariables view;
                       Tester.outputA := finalA; Tester.outputB := finalB;
                       Tester.isComparison := Tester.isComparisonMode view |}
                    :: firstn 49 prev) = firstn 49 prev).
  { intros Hfresh. unfold Tester.deleteHistoryItem. cbn [filter Tester.id].
    rewrite text_eqb_refl. cbn [negb].
    apply forallb_filter_id, forallb_forall. intros x Hx.
    apply negb_true_iff, text_eqb_neq. intros Hid. apply Hfresh.
    rewrite <- Hid. apply in_map. eapply In_firstn_full; eauto. }
  split; [|split; [|split]].
  - cbn [length]. rewrite length_firstn. lia.
  - eexists. split; [reflexivity|]. repeat split.
  - exact Hdel.
  - intros Hfresh Hlen. rewrite Hdel by assumption.
    apply firstn_all2. lia.
Qed.

Lemma log_keeps_fifty_newest_witness :
  let view := {| Tester.currentPrompt := empty_prompt;
                 Tester.currentVariables := [];
                 Tester.isComparisonMode := false |} in
  Tester.deleteHistoryItem (str "id-2")
    (Tester.saveToHistory (str "id-2") 2%N view (str "out") None
       (Tester.saveToHistory (str "id-1") 1%N view (str "first") None []))
  = Tester.saveToHistory (str "id-1") 1%N view (str "first") None [].
Proof.
  cbv zeta.
  apply (proj2 (proj2 (proj2 (log_keeps_fifty_newest (str "id-2") 2%N
           {| Tester.currentPrompt := empty_prompt;
              Tester.currentVariables := [];
              Tester.isComparisonMode := false |} (str "out") None
           (Tester.saveToHistory (str "id-1") 1%N
              {| Tester.currentPrompt := empty_prompt;
                 Tester.currentVariables := [];
                 Tester.isComparisonMode := false |} (str "first") None []))))).
  - simpl. intros [H|[]]. discriminate.
  - simpl. lia.
Defined.

(** ** Applying the improvements of an analysis *)

Lemma Field_eqb_eq (a b : Field) : Field_eqb a b = true <-> a = b.
Proof. destruct a, b; simpl; split; congruence. Qed.

Lemma Field_eqb_refl (a : Field) : Field_eqb a a = true.
Proof. now apply Field_eqb_eq. Qed.

Lemma Field_eqb_neq (a b : Field) : a <> b -> Field_eqb a b = false.
Proof.
  intros H. destruct (Field_eqb a b) eqn:E; [|reflexivity].
  apply Field_eqb_eq in E. contradiction.
Qed.

Lemma Field_mem_In (f : Field) (s : list Field) :
  Field_mem f s = true <-> In f s.
Proof.
  unfold Field_mem. rewrite existsb_exists. split.
  - intros (x & Hx & E). apply Field_eqb_eq in E. now subst.
  - intros H. exists f. split; [exact H|apply Field_eqb_refl].
Qed.

Lemma Field_add_In (s : list Field) (f x : Field) :
  In x (Field_add s f) <-> In x s \/ x = f.
Proof.
  unfold Field_add. destruct (Field_mem f s) eqn:E.
  - apply Field_mem_In in E. split; [tauto|]. intros [H|H]; [exact H|now subst].
  - rewrite in_app_iff. simpl. intuition congruence.
Qed.

Lemma improvement_of_absent (f : Field) (imp : improvements) :
  ~ In f (map fst imp) -> improvement_of f imp = None.
Proof.
  induction imp as [|[k t] imp IH]; intros H; [reflexivity|].
  simpl in *. rewrite Field_eqb_neq by tauto. apply IH. tauto.
Qed.

Lemma improvement_of_entry (imp : improvements) :
  NoDup (map fst imp) ->
  forall k t, In (k, t) imp -> improvement_of k imp = Some t.
Proof.
  induction imp as [|[k0 t0] imp IH]; intros Hnd k t Hin; [contradiction|].
  simpl in Hnd. apply NoDup_cons_iff in Hnd as [Hk Hnd]. simpl.
  destruct Hin as [Hin|Hin].
  - injection Hin as -> ->. now rewrite Field_eqb_refl.
  - rewrite Field_eqb_neq; [now apply IH|].
    intros ->. apply Hk. apply in_map_iff. now exists (k, t).
Qed.

Lemma applyAll_fields (imp : improvements) :
  NoDup (map fst imp) ->
  forall st f,
    get_field f (data (applyAllImprovements imp st))
    = (if truthy (improvement_of f imp) then or_empty (improvement_of f imp)
       else get_field f (data st))
    /\ (In f (appliedImprovements (applyAllImprovements imp st))
        <-> In f (appliedImprovements st) \/ truthy (improvement_of f imp) = true).
Proof.
  unfold applyAllImprovements.
  induction imp as [|[k t] imp IH]; intros Hnd st f.
  - simpl. split; [reflexivity|]. split; [tauto|].
    intros [H|H]; [exact H|discriminate].
  - simpl in Hnd. apply NoDup_cons_iff in Hnd as [Hk Hnd].
    cbn [fold_left fst snd].
    destruct (IH Hnd
                (if truthy (Some t)
                 then {| data := handleUpdateField k t (data st);
                         appliedImprovements :=
                           Field_add (appliedImprovements st) k |}
                 else st) f) as [Hdata Happlied].
    rewrite Hdata, Happlied. clear Hdata Happlied. cbn [improvement_of].
    destruct (Field_eqb k f) eqn:E.
    + apply Field_eqb_eq in E. subst f.
      rewrite (improvement_of_absent k imp Hk). cbn [truthy or_empty].
      destruct t as [|c t]; cbn [truthy data appliedImprovements].
      * split; [reflexivity|]. split; [tauto|].
        intros [H|H]; [now left|discriminate].
      * unfold handleUpdateField. rewrite get_set_field.
        split; [reflexivity|]. rewrite Field_add_In. split; [|tauto].
        intros [[H|H]|H]; auto.
    + destruct t as [|c t]; cbn [truthy data appliedImprovements].
      * tauto.
      * unfold handleUpdateField.
        rewrite get_set_other_field
          by (intros ->; rewrite Field_eqb_refl in E; discriminate).
        split; [reflexivity|]. rewrite Field_add_In.
        split; [|tauto]. intros [[H|H]|H]; auto.
        subst f. rewrite Field_eqb_refl in E. discriminate.
Qed.

Lemma applyAll_one_by_one (imp : improvements) (l : improvements) :
  (forall k t, In (k, t) l -> improvement_of k imp = Some t) ->
  forall st,
    fold_left
      (fun acc (entry : Field * text) =>
         if truthy (Some (snd entry))
         then {| data := handleUpdateField (fst entry) (snd entry) (data acc);
                 appliedImprovements :=
                   Field_add (appliedImprovements acc) (fst entry) |}
         else acc) l st
    = fold_left (fun acc f => applyImprovement imp f acc) (map fst l) st.
Proof.
  induction l as [|[k t] l IH]; intros H st; [reflexivity|].
  cbn [fold_left map fst snd]. rewrite IH by (intros; apply H; now right).
  f_equal. unfold applyImprovement. rewrite (H k t) by now left.
  reflexivity.
Qed.

(** X24. Applying all the improvements of an analysis replaces exactly the
    fields for which the analysis has a text that is not empty, by that
    text; the other fields keep their value, and an empty suggestion never
    blanks a field.  The fields replaced, and no others, are added to the
    applied ones, after which all improvements count as applied.  Applying
    all of them is applying them one by one with [applyImprovement]. *)
Theorem improvements_replace_suggested_fields
  (imp : improvements) (st : BuilderState) (Hkeys : NoDup (map fst imp)) :
  (forall f,
      get_field f (data (applyAllImprovements imp st))
      = if truthy (improvement_of f imp) then or_empty (improvement_of f imp)
        else get_field f (data st))
  /\ (forall f,
        In f (appliedImprovements (applyAllImprovements imp st))
        <-> In f (appliedImprovements st)
            \/ truthy (improvement_of f imp) = true)
  /\ applyAllImprovements imp st
     = fold_left (fun acc f => applyImprovement imp f acc) (map fst imp) st
  /\ (hasAnyImprovements imp = true ->
      allImprovementsApplied imp
        (appliedImprovements (applyAllImprovements imp st)) = true).
Proof.
  split; [|split; [|split]].
  - intros f. now apply applyAll_fields.
  - intros f. now apply applyAll_fields.
  - unfold applyAllImprovements. apply applyAll_one_by_one.
    now apply improvement_of_entry.
  - intros Hany. unfold allImprovementsApplied. rewrite Hany. cbn [andb].
    apply forallb_forall. intros k Hk. apply filter_In in Hk as [_ Hk].
    apply Field_mem_In. apply (applyAll_fields imp Hkeys st k). now right.
Qed.

Lemma improvements_witness :
  get_field f_context
    (data (applyAllImprovements
             [(f_role, str "Senior editor"); (f_context, [])]
             {| data := set_field f_context (str "kept") empty_prompt;
                appliedImprovements := [] |}))
  = str "kept".
Proof.
  apply (proj1 (improvements_replace_suggested_fields
                  [(f_role, str "Senior editor"); (f_context, [])]
                  {| data := set_field f_context (str "kept") empty_prompt;
                     appliedImprovements := [] |}
                  ltac:(repeat constructor; simpl; intuition discriminate))
           f_context).
Defined.

(** ** What a stage does not see *)

(** X25. A stage sees the outputs of the stages before it and no others:
    two stores with the same outputs before position [i] give the same
    resolution of every text for stage [i], whatever outputs, stale or not,
    stage [i] and the later stages hold; with the same prompt at [i] the
    requests are the same. *)
Theorem later_outputs_are_not_seen
  (g : entries) (S1 S2 : list PromptChainStep) (i : nat)
  (Hbefore : forall j, j < i -> output_at S1 j = output_at S2 j) :
  (forall t, substituteAll g S1 t i = substituteAll g S2 t i)
  /\ (data_at S1 i = data_at S2 i -> fullPrompt g S1 i = fullPrompt g S2 i).
Proof.
  assert (E : forall t, substituteAll g S1 t i = substituteAll g S2 t i).
  { intros t. rewrite !substituteAll_scope. unfold effective_scope.
    rewrite (prior_outputs_firstn S1), (prior_outputs_firstn S2).
    now rewrite (prior_outputs_same_outputs _ _ i (outputs_before S1 S2 i Hbefore)). }
  split; [exact E|].
  intros Hd. unfold fullPrompt. now rewrite Hd, !E.
Qed.

Lemma later_outputs_witness :
  let text0 := str "{{output_1}}, {{output_2}}, {{output_3}}" in
  let S1 := [stage_after completed (str "one") (mk_step "A" "a");
             mk_step "B" "b"; mk_step "C" "c"] in
  let S2 := [stage_after completed (str "one") (mk_step "A" "a");
             stage_after completed (str "stale") (mk_step "B" "b");
             stage_after error (str "older") (mk_step "C" "c")] in
  substituteAll [] S1 text0 1 = substituteAll [] S2 text0 1.
Proof.
  cbv zeta.
  apply (proj1 (later_outputs_are_not_seen []
                  [stage_after completed (str "one") (mk_step "A" "a");
                   mk_step "B" "b"; mk_step "C" "c"]
                  [stage_after completed (str "one") (mk_step "A" "a");
                   stage_after completed (str "stale") (mk_step "B" "b");
                   stage_after error (str "older") (mk_step "C" "c")] 1
                  ltac:(intros [|j] Hj; [reflexivity|lia]))).
Defined.

(** X26. A prompt without braces is sent as it is written: when the five
    fields of a stage have no brace, its request is the five fields under
    their labels, whatever the global variables and the earlier outputs
    are. *)
Theorem plain_prompt_is_sent_as_written
  (g : entries) (store : list PromptChainStep) (i : nat)
  (Hplain : Forall (fun t => brace_free t = true)
              (Object_values (data_at store i))) :
  fullPrompt g store i
  = str "Role: " ++ role (data_at store i)
    ++ newline :: str "Instruction: " ++ instruction (data_at store i)
    ++ newline :: str "Context: " ++ context (data_at store i)
    ++ newline :: str "Constraints: " ++ constraints (data_at store i)
    ++ newline :: str "Evaluation: " ++ evaluation (data_at store i).
Proof.
  unfold Object_values in Hplain.
  repeat match goal with
         | H : Forall _ (_ :: _) |- _ => apply Forall_cons_iff in H as [? H]
         end.
  unfold fullPrompt. now rewrite !substituteAll_plain by assumption.
Qed.

Lemma plain_prompt_witness :
  fullPrompt [(str "topic", str "bees")]
    [stage_after completed (str "{{topic}}") (mk_step "A" "a");
     mk_step "B" "Write a poem."] 1
  = str "Role: " ++ newline :: str "Instruction: Write a poem."
    ++ newline :: str "Context: " ++ newline :: str "Constraints: "
    ++ newline :: str "Evaluation: ".
Proof.
  apply (plain_prompt_is_sent_as_written [(str "topic", str "bees")]
           [stage_after completed (str "{{topic}}") (mk_step "A" "a");
            mk_step "B" "Write a poem."] 1).
  repeat constructor.
Defined.
